(** * RandomDict: a mapping with O(1) random selection

    Shallow embedding of [randomdict.py] (class [RandomDict]) and of the
    [collections.abc.MutableMapping] mixin methods it inherits, followed by
    the properties of the container.

    Layout of the development:
    - [Python runtime]: exceptions, results, list indexing as Python does it;
    - [Object fields]: the three attributes of one instance and the methods
      as state transformers on them (a raise keeps the mutations made so far);
    - [Object store]: instances, dicts and lists as heap objects reached by
      reference, for [copy] and aliasing;
    - the theorems. *)

From Stdlib Require Import ZArith Lia.
From stdpp Require Import gmap strings list fin_maps pretty.

Open Scope Z_scope.

(* ===================================================================== *)
(** ** Python runtime *)
(* ===================================================================== *)

(** The exception classes the code can raise. *)
Inductive exc_class := KeyError | IndexError | TypeError | StopIteration.

#[export] Instance exc_class_eq_dec : EqDecision exc_class.
Proof. solve_decision. Defined.

(** Argument carried by an exception instance: the offending key
    ([KeyError(key)]), a message, or nothing ([raise KeyError]). *)
Inductive exc_args (K : Type) :=
  | ArgKey (k : K)
  | ArgMsg (msg : string)
  | ArgNone.
Arguments ArgKey {K} k.
Arguments ArgMsg {K} msg.
Arguments ArgNone {K}.

Record exception (K : Type) := Exc { exc_type : exc_class; exc_arg : exc_args K }.
Arguments Exc {K} _ _.
Arguments exc_type {K} _.
Arguments exc_arg {K} _.

(** Outcome of a call: a returned value or a raised exception. *)
Inductive result (K A : Type) :=
  | Returns (a : A)
  | Raises (e : exception K).
Arguments Returns {K A} a.
Arguments Raises {K A} e.

(** The value a call returned, if it returned. *)
Definition returned {K A} (r : result K A) : option A :=
  match r with Returns a => Some a | Raises _ => None end.

(** [raised c r]: the call ended by raising an exception of class [c]. *)
Definition raised {K A} (c : exc_class) (r : result K A) : Prop :=
  match r with Returns _ => False | Raises e => exc_type e = c end.

(** Python list subscripts: [0 <= i < n] counts from the front,
    [-n <= i < 0] from the back, anything else is out of range. *)
Definition norm_index (n : nat) (i : Z) : option nat :=
  if (0 <=? i) && (i <? Z.of_nat n) then Some (Z.to_nat i)
  else if (- Z.of_nat n <=? i) && (i <? 0) then Some (Z.to_nat (Z.of_nat n + i))
  else None.

(** [l[i]] *)
Definition list_getitem {K A} (l : list A) (i : Z) : result K A :=
  match norm_index (length l) i with
  | Some p =>
      match l !! p with
      | Some x => Returns x
      | None => Raises (Exc IndexError (ArgMsg "list index out of range"))
      end
  | None => Raises (Exc IndexError (ArgMsg "list index out of range"))
  end.

(** [l[i] = x] *)
Definition list_setitem {K A} (l : list A) (i : Z) (x : A) : result K (list A) :=
  match norm_index (length l) i with
  | Some p => Returns (<[p := x]> l)
  | None => Raises (Exc IndexError (ArgMsg "list assignment index out of range"))
  end.

(** [l.pop()]: the last element and the shortened list. *)
Definition list_pop {K A} (l : list A) : result K (A * list A) :=
  match last l with
  | Some x => Returns (x, removelast l)
  | None => Raises (Exc IndexError (ArgMsg "pop from empty list"))
  end.

(** Keys are Python objects of any hashable kind; keyword names are [str]
    objects, so the key type holds them: [str_key name] is the string
    [name] as a key. *)
Class StrKey (K : Type) := str_key : string → K.

#[export] Instance string_StrKey : StrKey string := λ name, name.

(** [random.randint(a, b)] returns an integer [i] with [a <= i <= b]; the
    draw itself is an input of the model. *)
Definition randint (a b : Z) (i : Z) : bool := (a <=? i) && (i <=? b).

(* ===================================================================== *)
(** ** Object fields: one [RandomDict] instance *)
(* ===================================================================== *)

Section RandomDict.
Context {K : Type} {EqK : EqDecision K} {CntK : Countable K}
        {V : Type} {EqV : EqDecision V} {StrK : StrKey K}.

(** The attributes set by [__init__]: the key -> slot dict, the list of
    (key, value) entries and the index of the last entry. *)
Record RandomDict := mkRandomDict {
  _keys : gmap K Z;
  _values : list (K * V);
  last_index : Z
}.

(** A method body: reads and mutates the instance, then returns or raises.
    The instance is returned in both cases, since a raise does not roll the
    earlier assignments back. *)
Definition M (A : Type) : Type := RandomDict → result K A * RandomDict.

#[export] Instance M_ret : MRet M := λ A a self, (Returns a, self).
#[export] Instance M_bind : MBind M := λ A B f m self,
  match m self with
  | (Returns a, self') => f a self'
  | (Raises e, self') => (Raises e, self')
  end.

Definition raise {A} (c : exc_class) (a : exc_args K) : M A :=
  λ self, (Raises (Exc c a), self).

(** [try: body  except c as e: handler(e)  else: orelse(a)], where [a] is
    what the body bound. An exception of another class propagates. *)
Definition try_except_else {A B} (body : M A) (c : exc_class)
    (handler : exception K → M B) (orelse : A → M B) : M B :=
  λ self,
  match body self with
  | (Returns a, self') => orelse a self'
  | (Raises e, self') =>
      if decide (exc_type e = c) then handler e self' else (Raises e, self')
  end.

(** *** Attribute and container primitives *)

Definition set_keys (d : gmap K Z) : M unit :=
  λ self, (Returns tt, mkRandomDict d (_values self) (last_index self)).
Definition set_values (l : list (K * V)) : M unit :=
  λ self, (Returns tt, mkRandomDict (_keys self) l (last_index self)).
Definition get_last_index : M Z := λ self, (Returns (last_index self), self).
Definition set_last_index (z : Z) : M unit :=
  λ self, (Returns tt, mkRandomDict (_keys self) (_values self) z).

(** [self._keys.get(key, default)] *)
Definition keys_get (key : K) (dflt : Z) : M Z :=
  λ self, (Returns (default dflt (_keys self !! key)), self).

(** [self._keys[key]] *)
Definition keys_getitem (key : K) : M Z :=
  λ self,
  match _keys self !! key with
  | Some i => (Returns i, self)
  | None => (Raises (Exc KeyError (ArgKey key)), self)
  end.

(** [key in self._keys] *)
Definition keys_contains (key : K) : M bool :=
  λ self, (Returns (bool_decide (is_Some (_keys self !! key))), self).

(** [self._keys[key] = i] *)
Definition keys_setitem (key : K) (i : Z) : M unit :=
  λ self, (Returns tt, mkRandomDict (<[key := i]> (_keys self)) (_values self) (last_index self)).

(** [del self._keys[key]] *)
Definition keys_delitem (key : K) : M unit :=
  λ self,
  match _keys self !! key with
  | Some _ => (Returns tt, mkRandomDict (delete key (_keys self)) (_values self) (last_index self))
  | None => (Raises (Exc KeyError (ArgKey key)), self)
  end.

(** [self._values[i]] *)
Definition values_getitem (i : Z) : M (K * V) :=
  λ self, (list_getitem (_values self) i, self).

(** [self._values[i] = kv] *)
Definition values_setitem (i : Z) (kv : K * V) : M unit :=
  λ self,
  match list_setitem (_values self) i kv with
  | Returns l => (Returns tt, mkRandomDict (_keys self) l (last_index self))
  | Raises e => (Raises e, self)
  end.

(** [self._values.append(kv)] *)
Definition values_append (kv : K * V) : M unit :=
  λ self, (Returns tt, mkRandomDict (_keys self) (_values self ++ [kv]) (last_index self)).

(** [self._values.pop()] *)
Definition values_pop : M (K * V) :=
  λ self,
  match list_pop (_values self) with
  | Returns (kv, l) => (Returns kv, mkRandomDict (_keys self) l (last_index self))
  | Raises e => (Raises e, self)
  end.

(** [for x in xs: body(x)] *)
Fixpoint for_each {A} (xs : list A) (body : A → M unit) : M unit :=
  match xs with
  | [] => mret tt
  | x :: xs' => body x ;; for_each xs' body
  end.

(** *** The methods of [RandomDict] *)

Definition __setitem__ (key : K) (val : V) : M unit :=
  i ← keys_get key (-1);
  if -1 <? i then
    values_setitem i (key, val)
  else
    li ← get_last_index;
    set_last_index (li + 1) ;;
    i ← get_last_index;
    values_append (key, val) ;;
    keys_setitem key i.

Definition __delitem__ (key : K) : M unit :=
  i ← keys_getitem key;
  '(move_key, move_val) ← values_pop;
  li ← get_last_index;
  (if negb (i =? li) then
     values_setitem i (move_key, move_val) ;;
     keys_setitem move_key i
   else mret tt) ;;
  li ← get_last_index;
  set_last_index (li - 1) ;;
  keys_delitem key.

Definition __getitem__ (key : K) : M V :=
  b ← keys_contains key;
  if negb b then raise KeyError (ArgKey key)
  else
    i ← keys_getitem key;
    kv ← values_getitem i;
    mret kv.2.

(** [iter(self._keys)], as the list of keys it yields. The enumeration
    order of a dict is not part of this model. *)
Definition __iter__ : M (list K) :=
  λ self, (Returns (elements (dom (_keys self))), self).

Definition __len__ : M Z :=
  li ← get_last_index;
  mret (li + 1).

(** [random_key], with [i] the integer that [random.randint(0,
    self.last_index)] returns (see [randint]). *)
Definition random_key (i : Z) : M K :=
  n ← __len__;
  if n =? 0 then raise KeyError (ArgMsg "RandomDict is empty")
  else
    kv ← values_getitem i;
    mret kv.1.

Definition random_value (i : Z) : M V :=
  k ← random_key i;
  __getitem__ k.

Definition random_item (i : Z) : M (K * V) :=
  k ← random_key i;
  v ← __getitem__ k;
  mret (k, v).

(** *** Mixin methods inherited from [collections.abc.MutableMapping] *)

(** [Mapping.__contains__]:
    [try: self[key]  except KeyError: return False  else: return True] *)
Definition __contains__ (key : K) : M bool :=
  try_except_else (__getitem__ key) KeyError (λ _, mret false) (λ _, mret true).

(** [MutableMapping.update(self, other=(), /, **kwds)]. A source is given
    by the (key, value) pairs its iteration yields: [(key, other[key])] for
    each key of a mapping, the pairs themselves for an iterable of pairs.
    [args] are the positional arguments after [self]; the signature takes at
    most one, and the TypeError of a call with more counts [self] among the
    arguments given (text as CPython 3.11 words it). *)
Definition update (args : list (list (K * V))) (kwds : list (K * V)) : M unit :=
  match args with
  | [] =>
      for_each [] (λ kv : K * V, __setitem__ kv.1 kv.2) ;;
      for_each kwds (λ kv, __setitem__ kv.1 kv.2)
  | [other] =>
      for_each other (λ kv, __setitem__ kv.1 kv.2) ;;
      for_each kwds (λ kv, __setitem__ kv.1 kv.2)
  | _ :: _ :: _ =>
      raise TypeError
        (ArgMsg ("MutableMapping.update() takes from 1 to 2 positional arguments but "
                 +:+ pretty (S (length args)) +:+ " were given"))
  end.

(** [MutableMapping.pop(self, key, default=__marker)]; [dflt = None] is
    the call without a default. *)
Definition pop (key : K) (dflt : option V) : M V :=
  try_except_else (__getitem__ key) KeyError
    (λ e, match dflt with
          | None => λ self, (Raises e, self)
          | Some d => mret d
          end)
    (λ value, __delitem__ key ;; mret value).

(** [next(it)] on the keys still to come. *)
Definition next (it : list K) : M K :=
  match it with
  | key :: _ => mret key
  | [] => raise StopIteration ArgNone
  end.

(** [MutableMapping.popitem] *)
Definition popitem : M (K * V) :=
  key ← try_except_else (it ← __iter__; next it) StopIteration
          (λ _, raise KeyError ArgNone) mret;
  value ← __getitem__ key;
  __delitem__ key ;;
  mret (key, value).

(** [list(self.items())]: [ItemsView.__iter__] yields [(key, self[key])]
    for each key of [iter(self)]. *)
Fixpoint items_of (keys : list K) : M (list (K * V)) :=
  match keys with
  | [] => mret []
  | key :: keys' =>
      v ← __getitem__ key;
      rest ← items_of keys';
      mret ((key, v) :: rest)
  end.

Definition items : M (list (K * V)) :=
  keys ← __iter__;
  items_of keys.

(** [dict(pairs)]: later pairs override earlier ones. *)
Definition dict_of_pairs (pairs : list (K * V)) : gmap K V :=
  foldl (λ d kv, <[kv.1 := kv.2]> d) ∅ pairs.

(** [Mapping.__eq__] against another [RandomDict]:
    [dict(self.items()) == dict(other.items())]. [on_other] runs a method
    that only reads on the other instance. *)
Definition on_other {A} (other : RandomDict) (m : M A) : M A :=
  λ self, ((m other).1, self).

Definition __eq__ (other : RandomDict) : M bool :=
  a ← items;
  b ← on_other other items;
  mret (bool_decide (dict_of_pairs a = dict_of_pairs b)).

(** [Mapping.get(self, key, default)]:
    [try: return self[key]  except KeyError: return default] *)
Definition get (key : K) (dflt : V) : M V :=
  try_except_else (__getitem__ key) KeyError (λ _, mret dflt) mret.

(** [MutableMapping.setdefault(self, key, default)]:
    [try: return self[key]  except KeyError: self[key] = default]
    and then [return default]. *)
Definition setdefault (key : K) (dflt : V) : M V :=
  try_except_else (__getitem__ key) KeyError
    (λ _, __setitem__ key dflt ;; mret dflt) mret.

(** [MutableMapping.clear]:
    [try: while True: self.popitem()  except KeyError: pass].
    [fuel] bounds the number of iterations; [None] is fuel exhausted. *)
Fixpoint clear (fuel : nat) (self : RandomDict)
    : option (result K unit * RandomDict) :=
  match fuel with
  | O => None
  | S fuel' =>
      match popitem self with
      | (Returns _, self') => clear fuel' self'
      | (Raises e, self') =>
          if decide (exc_type e = KeyError) then Some (Returns tt, self')
          else Some (Raises e, self')
      end
  end.

(** [dict(self.items())], the plain dict that [Mapping.__eq__] compares. *)
Definition as_dict : M (gmap K V) :=
  pairs ← items;
  mret (dict_of_pairs pairs).

(** *** Construction *)

(** The body of [__init__], with [args] and [kwargs] as the call has bound
    them: [kwargs] are the items of the keyword dict, names as keys. *)
Definition __init__ (args : list (list (K * V))) (kwargs : list (K * V)) : M unit :=
  set_keys ∅ ;;
  set_values [] ;;
  set_last_index (-1) ;;
  update args kwargs.

(** The instance before [__init__] has run; [__init__] assigns all three
    attributes before anything reads them. *)
Definition blank : RandomDict := mkRandomDict ∅ [] 0.

(** The items of the keyword dict: each name, as a key, with its value. *)
Definition kw_items (kwargs : list (string * V)) : list (K * V) :=
  (λ nv, (str_key nv.1, nv.2)) <$> kwargs.

(** Binding the keywords of a call to the parameters of
    [__init__(self, *args, **kwargs)]. [kwargs] lists the keyword arguments
    of the call in order, each name once. A keyword named [self] collides
    with the first parameter, which the instance already fills; every other
    name goes to the keyword dict. *)
Definition bind_kwargs (kwargs : list (string * V)) : result K (list (K * V)) :=
  if bool_decide ("self" ∈ kwargs.*1) then
    Raises (Exc TypeError
              (ArgMsg "RandomDict.__init__() got multiple values for argument 'self'"))
  else Returns (kw_items kwargs).

(** The call [RandomDict( *args, **kwargs )]: a new instance, the binding
    of the arguments, then the body of [__init__] on the instance. *)
Definition RandomDict_call (args : list (list (K * V))) (kwargs : list (string * V))
    : result K RandomDict :=
  match bind_kwargs kwargs with
  | Returns kw =>
      match __init__ args kw blank with
      | (Returns _, rd) => Returns rd
      | (Raises e, _) => Raises e
      end
  | Raises e => Raises e
  end.

(** [RandomDict.fromkeys(keys, value)] *)
Definition fromkeys (keys : list K) (value : V) : result K RandomDict :=
  match RandomDict_call [] [] with
  | Returns rd =>
      match for_each keys (λ key, __setitem__ key value) rd with
      | (Returns _, rd') => Returns rd'
      | (Raises e, _) => Raises e
      end
  | Raises e => Raises e
  end.
End RandomDict.

(* ===================================================================== *)
(** ** Object store: instances, dicts and lists reached by reference *)
(* ===================================================================== *)

Section Store.
Context {K : Type} {EqK : EqDecision K} {CntK : Countable K}
        {V : Type} {EqV : EqDecision V} {StrK : StrKey K}.

(** A heap object: a dict or a list owned by some instance, or an instance
    holding references to its [_keys] and [_values] and the integer
    [last_index]. *)
Inductive object :=
  | ODict (d : gmap K Z)
  | OList (l : list (K * V))
  | OInstance (keys_ref values_ref : positive) (li : Z).

Local Abbreviation heap := (gmap positive object).

(** A computation on the heap. [None] stands for a failure outside the
    model: a dangling reference or an attribute bound to an object of the
    wrong kind. *)
Definition HeapM (A : Type) : Type := heap → option (result K A * heap).

#[export] Instance H_ret : MRet HeapM := λ A a h, Some (Returns a, h).
#[export] Instance H_bind : MBind HeapM := λ A B f m h,
  match m h with
  | Some (Returns a, h') => f a h'
  | Some (Raises e, h') => Some (Raises e, h')
  | None => None
  end.

(** A new object at a reference not in use. *)
Definition alloc (o : object) : HeapM positive :=
  λ h, let r := fresh (dom h) in Some (Returns r, <[r := o]> h).

Definition instance_of (self : positive) : HeapM (positive * positive * Z) :=
  λ h,
  match h !! self with
  | Some (OInstance kr vr li) => Some (Returns (kr, vr, li), h)
  | _ => None
  end.

Definition set_instance (self kr vr : positive) (li : Z) : HeapM unit :=
  λ h, Some (Returns tt, <[self := OInstance kr vr li]> h).

Definition dict_at (r : positive) : HeapM (gmap K Z) :=
  λ h, match h !! r with Some (ODict d) => Some (Returns d, h) | _ => None end.

Definition list_at (r : positive) : HeapM (list (K * V)) :=
  λ h, match h !! r with Some (OList l) => Some (Returns l, h) | _ => None end.

(** The instance at [self] refers to the dict at [kr] and the list at [vr],
    and its attributes hold the contents [s]. *)
Definition points_to (h : heap) (self kr vr : positive) (s : RandomDict) : Prop :=
  h !! self = Some (OInstance kr vr (last_index s)) ∧
  h !! kr = Some (ODict (_keys s)) ∧
  h !! vr = Some (OList (_values s)).

(** The attributes of the instance at [self], read through its references. *)
Definition view (h : heap) (self : positive) : option RandomDict :=
  match h !! self with
  | Some (OInstance kr vr li) =>
      match h !! kr, h !! vr with
      | Some (ODict d), Some (OList l) => Some (mkRandomDict d l li)
      | _, _ => None
      end
  | _ => None
  end.

(** A method call on the instance at [self]: the method mutates the dict
    and the list the instance refers to, in place, and the instance's
    [last_index]; the references themselves stay. *)
Definition call {A} (self : positive) (m : M A) : HeapM A :=
  λ h,
  match h !! self with
  | Some (OInstance kr vr li) =>
      match h !! kr, h !! vr with
      | Some (ODict d), Some (OList l) =>
          let '(r, s) := m (mkRandomDict d l li) in
          Some (r, <[self := OInstance kr vr (last_index s)]>
                     (<[vr := OList (_values s)]>
                        (<[kr := ODict (_keys s)]> h)))
      | _, _ => None
      end
  | _ => None
  end.

(** [RandomDict( *args, **kwargs )] on the heap: the arguments are bound
    as in [RandomDict_call]; then [__init__] binds a new dict, a new list
    and -1, and updates them. *)
Definition new_RandomDict (args : list (list (K * V))) (kwargs : list (string * V))
    : HeapM positive :=
  match bind_kwargs kwargs with
  | Returns kw =>
      kr ← alloc (ODict ∅);
      vr ← alloc (OList []);
      self ← alloc (OInstance kr vr (-1));
      call self (update args kw) ;;
      mret self
  | Raises e => λ h, Some (Raises e, h)
  end.

(** [copy]: a new instance whose [_keys] and [_values] are bound to new
    objects holding the contents of the source's ([dict.copy()], [l[:]]). *)
Definition copy (self : positive) : HeapM positive :=
  new_rd ← new_RandomDict [] [];
  '(kr, vr, li) ← instance_of self;
  d ← dict_at kr;
  kr' ← alloc (ODict d);
  '(_, nv, nl) ← instance_of new_rd;
  set_instance new_rd kr' nv nl ;;
  l ← list_at vr;
  vr' ← alloc (OList l);
  '(nk, _, nl) ← instance_of new_rd;
  set_instance new_rd nk vr' nl ;;
  '(nk, nv, _) ← instance_of new_rd;
  set_instance new_rd nk nv li ;;
  mret new_rd.

(** [a == b] for two instances on the heap. *)
Definition heap_eq (a b : positive) : HeapM bool :=
  λ h,
  match view h b with
  | Some other => call a (__eq__ other) h
  | None => None
  end.
End Store.

(* ===================================================================== *)
(** ** Specification vocabulary *)
(* ===================================================================== *)

Section Vocabulary.
Context {K : Type} {EqK : EqDecision K} {CntK : Countable K}
        {V : Type} {EqV : EqDecision V} {StrK : StrKey K}.

Local Abbreviation RD := (@RandomDict K _ _ V).

(** The reported length (what [__len__] returns). *)
Definition count (s : RD) : Z := last_index s + 1.

(** [k] is a key of the Index. *)
Definition present (k : K) (s : RD) : Prop := is_Some (_keys s !! k).

(** I1: every present key is indexed to a valid position holding the key
    and its value. *)
Definition I1 (s : RD) : Prop :=
  ∀ k, present k s →
    ∃ p v, _keys s !! k = Some p ∧ 0 ≤ p < count s ∧
           _values s !! Z.to_nat p = Some (k, v) ∧
           (__getitem__ k s).1 = Returns v.

(** I2: the valid positions of Slots are exactly [0, count). *)
Definition I2 (s : RD) : Prop :=
  ∀ p : nat, is_Some (_values s !! p) ↔ Z.of_nat p < count s.

(** I3: count = number of entries in Slots = number of keys in Index. *)
Definition I3 (s : RD) : Prop :=
  count s = Z.of_nat (length (_values s)) ∧
  count s = Z.of_nat (size (_keys s)).

Definition Invariants (s : RD) : Prop := I1 s ∧ I2 s ∧ I3 s.

(** The invariant in the form the proofs use: the Index and the Slots are
    inverse to each other. *)
Record Inv (s : RD) : Prop := mkInv {
  inv_len : last_index s + 1 = Z.of_nat (length (_values s));
  inv_index : ∀ k p, _keys s !! k = Some p →
                0 ≤ p ∧ ∃ v, _values s !! Z.to_nat p = Some (k, v);
  inv_slots : ∀ (p : nat) k v, _values s !! p = Some (k, v) →
                _keys s !! k = Some (Z.of_nat p)
}.

(** The container right after [__init__] with no arguments. *)
Definition empty_rd : RD := mkRandomDict ∅ [] (-1).

(** Insert/delete histories. A call that raises ends, and the next call
    runs on the instance as the failed one left it. *)
Inductive op :=
  | OpSet (k : K) (v : V)
  | OpDel (k : K).

Definition run_op (o : op) : M (K:=K) (V:=V) unit :=
  match o with
  | OpSet k v => __setitem__ k v
  | OpDel k => __delitem__ k
  end.

Definition after (ops : list op) (s : RD) : RD :=
  foldl (λ s o, (run_op o s).2) s ops.

(** Equality as the specification words it: the same set of keys and, for
    each key, equal values. *)
Definition same_content (s1 s2 : RD) : Prop :=
  (∀ k, present k s1 ↔ present k s2) ∧
  (∀ k v1 v2, (__getitem__ k s1).1 = Returns v1 →
              (__getitem__ k s2).1 = Returns v2 → v1 = v2).

(** The two error kinds of the specification. The code raises [KeyError]
    for both: [raise KeyError("RandomDict is empty")] in [random_key],
    [raise KeyError(key)] in [__getitem__] and the dict's own KeyError in
    [__delitem__]. *)
Definition EmptyContainer : exc_class := KeyError.
Definition KeyNotFound : exc_class := KeyError.

Definition empty_error : exception K :=
  Exc EmptyContainer (ArgMsg "RandomDict is empty").
Definition missing_error (key : K) : exception K := Exc KeyNotFound (ArgKey key).

(** Last-writer-wins over a sequence of pairs: the value of the last pair
    whose key is [k]. *)
Fixpoint last_binding (pairs : list (K * V)) (k : K) : option V :=
  match pairs with
  | [] => None
  | (k', v) :: rest =>
      match last_binding rest k with
      | Some v' => Some v'
      | None => if decide (k' = k) then Some v else None
      end
  end.

(** Construction as the specification states it: any number of sources,
    construction returns, and for each key the last pair over all sources
    in argument order, then the keyword bindings, wins. *)
Definition construction_as_specified
    (args : list (list (K * V))) (kwargs : list (string * V)) : Prop :=
  ∃ rd : RD,
    RandomDict_call args kwargs = Returns rd ∧
    ∀ k, (__getitem__ k rd).1 =
           match last_binding (concat args ++ kw_items kwargs) k with
           | Some v => Returns v
           | None => Raises (missing_error k)
           end.

(** The same history on a plain dict: [d[k] = v] and [del d[k]], the
    latter leaving the dict as it is when [k] is missing. *)
Definition replay (ops : list op) (d : gmap K V) : gmap K V :=
  foldl (λ d o, match o with
                | OpSet k v => <[k := v]> d
                | OpDel k => delete k d
                end) d ops.

(** What a lookup must give for a container holding exactly [b]. *)
Definition lookup_result (b : option V) (k : K) : result K V :=
  match b with
  | Some v => Returns v
  | None => Raises (missing_error k)
  end.
End Vocabulary.

(** *** The sample scenario of the specification

    Start empty; [set("a",1)], [set("b",2)], [set("c",3)], [remove("a")]. *)

Definition sample_ops : list (@op string Z) :=
  [OpSet "a" 1; OpSet "b" 2; OpSet "c" 3; OpDel "a"].

Definition sample : @RandomDict string _ _ Z := after sample_ops empty_rd.

(** The sample container as an instance at reference 3, with its dict at
    1 and its list at 2. *)
Definition sample_heap : gmap positive (@object string _ _ Z) :=
  <[3%positive := OInstance 1 2 (last_index sample)]>
    (<[2%positive := OList (_values sample)]>
       {[1%positive := ODict (_keys sample)]}).

(* ===================================================================== *)
(** ** Properties *)
(* ===================================================================== *)

Section Properties.
Context {K : Type} {EqK : EqDecision K} {CntK : Countable K}
        {V : Type} {EqV : EqDecision V} {StrK : StrKey K}.

Local Abbreviation RD := (@RandomDict K _ _ V).

Implicit Types (s : RD) (k key : K) (v val : V) (p i : Z).

(** *** Python lists *)

Lemma norm_index_front n i :
  0 ≤ i < Z.of_nat n → norm_index n i = Some (Z.to_nat i).
Proof.
  intros Hi. unfold norm_index.
  destruct (0 <=? i) eqn:E1; [|lia].
  destruct (i <? Z.of_nat n) eqn:E2; [done|lia].
Qed.

Lemma list_getitem_front {A} (l : list A) i x :
  0 ≤ i → l !! Z.to_nat i = Some x → list_getitem (K:=K) l i = Returns x.
Proof.
  intros Hi Hx. unfold list_getitem.
  rewrite norm_index_front; [by rewrite Hx|].
  apply lookup_lt_Some in Hx. lia.
Qed.

Lemma list_setitem_front {A} (l : list A) i x :
  0 ≤ i < Z.of_nat (length l) →
  list_setitem (K:=K) l i x = Returns (<[Z.to_nat i := x]> l).
Proof. intros Hi. unfold list_setitem. by rewrite norm_index_front. Qed.

Lemma list_pop_snoc {A} (l : list A) x :
  list_pop (K:=K) (l ++ [x]) = Returns (x, l).
Proof. unfold list_pop. by rewrite last_snoc, removelast_last. Qed.

(** *** The methods, one equation per path *)

Lemma len_eq s : __len__ s = (Returns (count s), s).
Proof. done. Qed.

Lemma getitem_absent s k :
  _keys s !! k = None →
  __getitem__ k s = (Raises (Exc KeyError (ArgKey k)), s).
Proof.
  intros Hk. unfold __getitem__, mbind, M_bind, keys_contains. simpl.
  rewrite bool_decide_eq_false_2; [done|].
  rewrite Hk. by intros [? ?].
Qed.

Lemma getitem_present s k p :
  _keys s !! k = Some p →
  __getitem__ k s =
    (match list_getitem (_values s) p with
     | Returns kv => Returns kv.2
     | Raises e => Raises e
     end, s).
Proof.
  intros Hk. unfold __getitem__, mbind, M_bind, keys_contains. simpl.
  rewrite bool_decide_eq_true_2 by (rewrite Hk; eauto). simpl.
  unfold keys_getitem, values_getitem. rewrite Hk.
  by destruct (list_getitem (_values s) p).
Qed.

Lemma getitem_state s k : (__getitem__ k s).2 = s.
Proof.
  destruct (_keys s !! k) as [p|] eqn:Hk.
  - by rewrite (getitem_present _ _ _ Hk).
  - by rewrite getitem_absent.
Qed.

Lemma setitem_absent s k v :
  _keys s !! k = None →
  __setitem__ k v s =
    (Returns tt, mkRandomDict (<[k := last_index s + 1]> (_keys s))
                              (_values s ++ [(k, v)]) (last_index s + 1)).
Proof.
  intros Hk. unfold __setitem__, mbind, M_bind, keys_get. simpl.
  by rewrite Hk.
Qed.

Lemma setitem_present s k v p :
  _keys s !! k = Some p → 0 ≤ p →
  __setitem__ k v s = values_setitem p (k, v) s.
Proof.
  intros Hk Hp. unfold __setitem__, mbind, M_bind, keys_get. simpl.
  rewrite Hk. simpl. destruct (-1 <? p) eqn:E; [done|lia].
Qed.

Lemma setitem_present_inv s k v p :
  Inv s → _keys s !! k = Some p →
  __setitem__ k v s =
    (Returns tt, mkRandomDict (_keys s) (<[Z.to_nat p := (k, v)]> (_values s))
                              (last_index s)).
Proof.
  intros HI Hk. destruct (inv_index _ HI _ _ Hk) as [Hp [v0 Hv0]].
  rewrite (setitem_present _ _ _ _ Hk Hp). unfold values_setitem.
  rewrite list_setitem_front; [done|].
  apply lookup_lt_Some in Hv0. lia.
Qed.

Lemma getitem_present_inv s k p :
  Inv s → _keys s !! k = Some p →
  ∃ v, _values s !! Z.to_nat p = Some (k, v) ∧
       __getitem__ k s = (Returns v, s).
Proof.
  intros HI Hk. destruct (inv_index _ HI _ _ Hk) as [Hp [v0 Hv0]].
  exists v0. split; [done|].
  rewrite (getitem_present _ _ _ Hk).
  by rewrite (list_getitem_front _ _ _ Hp Hv0).
Qed.

(** *** The working invariant is kept by insertion *)

Lemma Inv_empty : Inv (K:=K) (V:=V) empty_rd.
Proof.
  split; simpl; [done| |].
  - intros k p Hk. by rewrite lookup_empty in Hk.
  - intros p k v Hp. by rewrite lookup_nil in Hp.
Qed.

Lemma Inv_slot_key s k k' p v' :
  Inv s → _keys s !! k = Some p → _values s !! Z.to_nat p = Some (k', v') →
  k' = k.
Proof.
  intros HI Hk Hv. destruct (inv_index _ HI _ _ Hk) as [_ [v0 Hv0]]. congruence.
Qed.

Lemma Inv_index_inj s k k' p :
  Inv s → _keys s !! k = Some p → _keys s !! k' = Some p → k = k'.
Proof.
  intros HI Hk Hk'. destruct (inv_index _ HI _ _ Hk') as [_ [v0 Hv0]].
  symmetry. eapply Inv_slot_key; eauto.
Qed.

Lemma Inv_index_range s k p :
  Inv s → _keys s !! k = Some p → 0 ≤ p < count s.
Proof.
  intros HI Hk. destruct (inv_index _ HI _ _ Hk) as [Hp [v0 Hv0]].
  apply lookup_lt_Some in Hv0. unfold count. rewrite (inv_len _ HI). lia.
Qed.

Lemma Inv_setitem s k v : Inv s → Inv (__setitem__ k v s).2.
Proof.
  intros HI. destruct (_keys s !! k) as [p|] eqn:Hk.
  - rewrite (setitem_present_inv _ _ _ _ HI Hk). simpl.
    pose proof (Inv_index_range _ _ _ HI Hk) as Hp.
    unfold count in Hp. rewrite (inv_len _ HI) in Hp.
    split; simpl.
    + rewrite length_insert. apply (inv_len _ HI).
    + intros k' q Hk'. destruct (inv_index _ HI _ _ Hk') as [Hq [v0 Hv0]].
      split; [done|]. destruct (decide (q = p)) as [->|Hne].
      * assert (k' = k) as -> by (eapply Inv_index_inj; eauto).
        exists v. apply list_lookup_insert_eq. lia.
      * exists v0. rewrite list_lookup_insert_ne; [done|lia].
    + intros q k' v' Hq. destruct (decide (q = Z.to_nat p)) as [->|Hne].
      * rewrite list_lookup_insert_eq in Hq by lia.
        injection Hq as <- <-. rewrite Hk. f_equal. lia.
      * rewrite list_lookup_insert_ne in Hq by done.
        by apply (inv_slots _ HI _ _ v').
  - rewrite (setitem_absent _ _ _ Hk). simpl.
    pose proof (inv_len _ HI) as Hlen.
    split; simpl.
    + rewrite length_app. simpl. lia.
    + intros k' q Hk'. destruct (decide (k = k')) as [<-|Hne].
      * rewrite lookup_insert_eq in Hk'. injection Hk' as <-.
        split; [lia|]. exists v.
        replace (Z.to_nat (last_index s + 1)) with (length (_values s)) by lia.
        by rewrite lookup_app_r, Nat.sub_diag.
      * rewrite lookup_insert_ne in Hk' by done.
        destruct (inv_index _ HI _ _ Hk') as [Hq [v0 Hv0]].
        split; [done|]. exists v0.
        rewrite lookup_app_l; [done|]. by eapply lookup_lt_Some.
    + intros q k' v' Hq.
      destruct (decide (q < length (_values s))%nat) as [Hlt|Hge].
      * rewrite lookup_app_l in Hq by done.
        pose proof (inv_slots _ HI _ _ _ Hq) as Hk'.
        rewrite lookup_insert_ne; [done|]. intros ->. congruence.
      * rewrite lookup_app_r in Hq by lia.
        destruct (q - length (_values s))%nat as [|n] eqn:E; simpl in Hq;
          [|by rewrite lookup_nil in Hq].
        injection Hq as <- <-. rewrite lookup_insert_eq. f_equal. lia.
Qed.

(** *** Deletion *)

Lemma delitem_absent s k :
  _keys s !! k = None →
  __delitem__ k s = (Raises (Exc KeyError (ArgKey k)), s).
Proof.
  intros Hk. unfold __delitem__, mbind, M_bind, keys_getitem. by rewrite Hk.
Qed.

Lemma Inv_last_slot s l mk mv :
  Inv s → _values s = l ++ [(mk, mv)] →
  last_index s = Z.of_nat (length l) ∧ _keys s !! mk = Some (last_index s).
Proof.
  intros HI Hl. pose proof (inv_len _ HI) as Hlen.
  rewrite Hl, length_app in Hlen. simpl in Hlen.
  assert (last_index s = Z.of_nat (length l)) as Hli by lia.
  split; [done|]. rewrite Hli. apply (inv_slots _ HI _ _ mv).
  by rewrite Hl, lookup_app_r, Nat.sub_diag.
Qed.

Lemma delitem_present_inv s k p :
  Inv s → _keys s !! k = Some p →
  ∃ l mk mv,
    _values s = l ++ [(mk, mv)] ∧
    __delitem__ k s =
      (Returns tt,
       if decide (p = last_index s)
       then mkRandomDict (delete k (_keys s)) l (last_index s - 1)
       else mkRandomDict (delete k (<[mk := p]> (_keys s)))
                         (<[Z.to_nat p := (mk, mv)]> l) (last_index s - 1)).
Proof.
  intros HI Hk.
  pose proof (Inv_index_range _ _ _ HI Hk) as Hp. unfold count in Hp.
  destruct (decide (_values s = [])) as [Hnil|Hne].
  { pose proof (inv_len _ HI) as Hlen. rewrite Hnil in Hlen. simpl in Hlen. lia. }
  destruct (exists_last Hne) as [l [[mk mv] Hl]].
  exists l, mk, mv. split; [done|].
  destruct (Inv_last_slot _ _ _ _ HI Hl) as [Hli Hmk].
  unfold __delitem__, mbind, M_bind, keys_getitem. rewrite Hk.
  unfold values_pop at 1. rewrite Hl, list_pop_snoc. simpl.
  destruct (decide (p = last_index s)) as [->|Hnl].
  - rewrite Z.eqb_refl. simpl. unfold keys_delitem. simpl. by rewrite Hk.
  - destruct (p =? last_index s) eqn:E; [lia|]. simpl.
    unfold values_setitem. simpl.
    rewrite list_setitem_front by lia. simpl.
    unfold keys_delitem. simpl.
    destruct (decide (mk = k)) as [->|Hmkk].
    + rewrite lookup_insert_eq. done.
    + rewrite lookup_insert_ne by done. by rewrite Hk.
Qed.

Lemma Inv_delitem s k : Inv s → Inv (__delitem__ k s).2.
Proof.
  intros HI. destruct (_keys s !! k) as [p|] eqn:Hk;
    [|by rewrite (delitem_absent _ _ Hk)].
  destruct (delitem_present_inv _ _ _ HI Hk) as (l & mk & mv & Hl & ->).
  destruct (Inv_last_slot _ _ _ _ HI Hl) as [Hli Hmk].
  pose proof (Inv_index_range _ _ _ HI Hk) as Hp. unfold count in Hp.
  assert (∀ k' q, k' ≠ mk → _keys s !! k' = Some q →
            0 ≤ q < Z.of_nat (length l) ∧
            ∃ v0, l !! Z.to_nat q = Some (k', v0)) as Hold.
  { intros k' q Hne Hk'.
    destruct (inv_index _ HI _ _ Hk') as [Hq [v0 Hv0]].
    pose proof (Inv_index_range _ _ _ HI Hk') as Hr. unfold count in Hr.
    assert (q ≠ last_index s).
    { intros ->. apply Hne. eapply Inv_index_inj; eauto. }
    split; [lia|]. exists v0. rewrite Hl, lookup_app_l in Hv0 by lia. done. }
  assert (∀ (q : nat) k' v', l !! q = Some (k', v') →
            _keys s !! k' = Some (Z.of_nat q) ∧ k' ≠ mk) as Hnew.
  { intros q k' v' Hq. pose proof (lookup_lt_Some _ _ _ Hq) as Hlt.
    assert (_keys s !! k' = Some (Z.of_nat q)) as Hk'.
    { apply (inv_slots _ HI _ _ v'). rewrite Hl, lookup_app_l; done. }
    split; [done|]. intros ->. rewrite Hmk in Hk'. injection Hk'. lia. }
  destruct (decide (p = last_index s)) as [->|Hnl]; simpl.
  - assert (mk = k) as -> by (eapply Inv_index_inj; eauto).
    split; simpl.
    + lia.
    + intros k' q Hk'. apply lookup_delete_Some in Hk' as [Hne Hk'].
      destruct (Hold k' q) as [Hq Hv]; [done|done|]. split; [lia|done].
    + intros q k' v' Hq. destruct (Hnew _ _ _ Hq) as [Hk' Hne].
      by rewrite lookup_delete_ne.
  - assert (mk ≠ k) as Hmkk.
    { intros ->. rewrite Hmk in Hk. injection Hk. lia. }
    split; simpl.
    + rewrite length_insert. lia.
    + intros k' q Hk'. apply lookup_delete_Some in Hk' as [Hne Hk'].
      destruct (decide (mk = k')) as [<-|Hne'].
      * rewrite lookup_insert_eq in Hk'. injection Hk' as <-.
        split; [lia|]. exists mv. apply list_lookup_insert_eq. lia.
      * rewrite lookup_insert_ne in Hk' by done.
        destruct (Hold k' q) as [Hq [v0 Hv0]]; [done|done|].
        split; [lia|]. exists v0. rewrite list_lookup_insert_ne; [done|].
        intros Heq. apply Hne. assert (q = p) as -> by lia.
        exact (Inv_index_inj _ _ _ _ HI Hk Hk').
    + intros q k' v' Hq. destruct (decide (q = Z.to_nat p)) as [->|Hne].
      * rewrite list_lookup_insert_eq in Hq by lia. injection Hq as <- <-.
        rewrite lookup_delete_ne by done. rewrite lookup_insert_eq.
        f_equal. lia.
      * rewrite list_lookup_insert_ne in Hq by done.
        destruct (Hnew _ _ _ Hq) as [Hk' Hne'].
        rewrite lookup_delete_ne.
        -- by rewrite lookup_insert_ne.
        -- intros ->. rewrite Hk in Hk'. injection Hk'. lia.
Qed.

(** *** The specification's invariants and the working one *)

Lemma Inv_size s : Inv s → size (_keys s) = length (_values s).
Proof.
  intros HI.
  assert (NoDup (_values s).*1) as Hnd.
  { apply NoDup_alt. intros a b k Ha Hb.
    rewrite list_lookup_fmap in Ha, Hb.
    destruct (_values s !! a) as [[ka va]|] eqn:Ea; [|done].
    destruct (_values s !! b) as [[kb vb]|] eqn:Eb; [|done].
    simpl in Ha, Hb. injection Ha as ->. injection Hb as ->.
    pose proof (inv_slots _ HI _ _ _ Ea) as H1.
    pose proof (inv_slots _ HI _ _ _ Eb) as H2.
    rewrite H1 in H2. injection H2. lia. }
  assert (dom (_keys s) = list_to_set (_values s).*1) as Hdom.
  { apply set_eq. intros k. rewrite elem_of_dom, elem_of_list_to_set.
    rewrite list_elem_of_fmap. split.
    - intros [p Hk]. destruct (inv_index _ HI _ _ Hk) as [_ [v0 Hv0]].
      exists (k, v0). split; [done|]. by eapply list_elem_of_lookup_2.
    - intros [[k' v'] [-> Hin]]. apply list_elem_of_lookup in Hin as [q Hq].
      simpl. rewrite (inv_slots _ HI _ _ _ Hq). eauto. }
  rewrite <- size_dom, Hdom, size_list_to_set by done.
  by rewrite length_fmap.
Qed.

Lemma Inv_Invariants s : Inv s → Invariants s.
Proof.
  intros HI. split; [|split].
  - intros k [p Hk]. destruct (getitem_present_inv _ _ _ HI Hk) as [v [Hv Hg]].
    exists p, v. split; [done|]. split; [by eapply Inv_index_range|].
    split; [done|]. by rewrite Hg.
  - intros q. rewrite lookup_lt_is_Some. unfold count.
    rewrite (inv_len _ HI). lia.
  - unfold count. split; [apply (inv_len _ HI)|].
    rewrite (Inv_size _ HI). apply (inv_len _ HI).
Qed.

(** Counting: a list with as many distinct elements as entries has no
    duplicate. *)
Lemma size_list_to_set_le (l : list K) :
  (size (list_to_set l : gset K) ≤ length l)%nat.
Proof.
  induction l as [|x l IH]; [rewrite list_to_set_nil, size_empty; done|].
  rewrite list_to_set_cons, length_cons.
  - destruct (decide (x ∈ (list_to_set l : gset K))) as [Hin|Hnin].
    + assert (({[x]} ∪ list_to_set l : gset K) = list_to_set l) as ->
        by (by apply subseteq_union_1_L, singleton_subseteq_l). lia.
    + rewrite size_union by (by apply disjoint_singleton_l).
      rewrite size_singleton. lia.
Qed.

Lemma size_list_to_set_NoDup (l : list K) :
  size (list_to_set l : gset K) = length l → NoDup l.
Proof.
  induction l as [|x l IH]; [constructor|].
  rewrite list_to_set_cons, length_cons. intros Hsz.
  pose proof (size_list_to_set_le l) as Hle.
  destruct (decide (x ∈ (list_to_set l : gset K))) as [Hin|Hnin].
  - assert (({[x]} ∪ list_to_set l : gset K) = list_to_set l) as Heq
      by (by apply subseteq_union_1_L, singleton_subseteq_l).
    rewrite Heq in Hsz. lia.
  - rewrite size_union in Hsz by (by apply disjoint_singleton_l).
    rewrite size_singleton in Hsz.
    constructor; [by rewrite elem_of_list_to_set in Hnin|]. apply IH. lia.
Qed.

Lemma Invariants_Inv s : Invariants s → Inv s.
Proof.
  intros (H1 & H2 & [H3 H4]). unfold count in *.
  assert (∀ k p, _keys s !! k = Some p →
            0 ≤ p ∧ ∃ v, _values s !! Z.to_nat p = Some (k, v)) as Hidx.
  { intros k p Hk. destruct (H1 k) as (p' & v & Hk' & Hp & Hv & _); [by eexists|].
    rewrite Hk in Hk'. injection Hk' as <-. split; [lia|eauto]. }
  split; [done|done|].
  assert (dom (_keys s) ⊆ list_to_set (_values s).*1) as Hsub.
  { intros k. rewrite elem_of_dom, elem_of_list_to_set, list_elem_of_fmap.
    intros [p Hk]. destruct (Hidx _ _ Hk) as [_ [v0 Hv0]].
    exists (k, v0). split; [done|]. by eapply list_elem_of_lookup_2. }
  pose proof (size_list_to_set_le (_values s).*1) as Hle.
  rewrite length_fmap in Hle.
  assert (size (dom (_keys s)) = length (_values s)) as Hsz
    by (rewrite size_dom; lia).
  assert (dom (_keys s) = list_to_set (_values s).*1) as Hdom.
  { apply set_subseteq_size_eq; [done|]. lia. }
  assert (NoDup (_values s).*1) as Hnd.
  { apply size_list_to_set_NoDup. rewrite <- Hdom, length_fmap. done. }
  intros q k v Hq.
  assert (k ∈ dom (_keys s)) as Hin.
  { rewrite Hdom, elem_of_list_to_set, list_elem_of_fmap.
    exists (k, v). split; [done|]. by eapply list_elem_of_lookup_2. }
  apply elem_of_dom in Hin as [p Hk]. rewrite Hk. f_equal.
  destruct (Hidx _ _ Hk) as [Hp [v0 Hv0]].
  assert (Z.to_nat p = q); [|lia].
  apply (NoDup_lookup _ _ _ k Hnd); rewrite list_lookup_fmap.
  - by rewrite Hv0.
  - by rewrite Hq.
Qed.

Lemma Invariants_iff_Inv s : Invariants s ↔ Inv s.
Proof. split; [apply Invariants_Inv|apply Inv_Invariants]. Qed.

(** *** Lookups after an update *)

Lemma present_None s k : ¬ present k s ↔ _keys s !! k = None.
Proof. unfold present. by rewrite eq_None_not_Some. Qed.

Lemma getitem_Inv s k :
  Inv s →
  __getitem__ k s =
    (match _keys s !! k with
     | Some p => match _values s !! Z.to_nat p with
                 | Some kv => Returns kv.2
                 | None => Raises (Exc KeyError (ArgKey k))
                 end
     | None => Raises (Exc KeyError (ArgKey k))
     end, s).
Proof.
  intros HI. destruct (_keys s !! k) as [p|] eqn:Hk.
  - destruct (getitem_present_inv _ _ _ HI Hk) as (v & Hv & ->). by rewrite Hv.
  - by apply getitem_absent.
Qed.

Lemma contains_Inv s k :
  Inv s → __contains__ k s = (Returns (bool_decide (present k s)), s).
Proof.
  intros HI. unfold __contains__, try_except_else.
  destruct (decide (present k s)) as [[p Hk]|Hk%present_None].
  - destruct (getitem_present_inv _ _ _ HI Hk) as (v & Hv & ->).
    rewrite bool_decide_eq_true_2; [done|]. unfold present. by rewrite Hk.
  - rewrite (getitem_absent _ _ Hk). simpl.
    rewrite bool_decide_eq_false_2; [done|]. by apply present_None.
Qed.

Lemma setitem_getitem_other s k v k' :
  Inv s → k' ≠ k →
  (__getitem__ k' (__setitem__ k v s).2).1 = (__getitem__ k' s).1.
Proof.
  intros HI Hne. pose proof (Inv_setitem _ k v HI) as HI'.
  rewrite (getitem_Inv _ _ HI'), (getitem_Inv _ _ HI). simpl.
  destruct (_keys s !! k) as [p|] eqn:Hk.
  - rewrite (setitem_present_inv _ _ _ _ HI Hk). simpl.
    destruct (_keys s !! k') as [q|] eqn:Hk'; [|done].
    rewrite list_lookup_insert_ne; [done|].
    intros Heq. apply Hne. destruct (inv_index _ HI _ _ Hk) as [Hp _].
    destruct (inv_index _ HI _ _ Hk') as [Hq _].
    assert (q = p) as -> by lia. exact (Inv_index_inj _ _ _ _ HI Hk' Hk).
  - rewrite (setitem_absent _ _ _ Hk). simpl.
    rewrite lookup_insert_ne by done.
    destruct (_keys s !! k') as [q|] eqn:Hk'; [|done].
    destruct (inv_index _ HI _ _ Hk') as [Hq [v0 Hv0]].
    rewrite lookup_app_l; [done|]. by eapply lookup_lt_Some.
Qed.

Lemma setitem_getitem_same s k v :
  Inv s →
  __getitem__ k (__setitem__ k v s).2 = (Returns v, (__setitem__ k v s).2).
Proof.
  intros HI. pose proof (Inv_setitem _ k v HI) as HI'.
  rewrite (getitem_Inv _ _ HI'). f_equal.
  destruct (_keys s !! k) as [p|] eqn:Hk.
  - rewrite (setitem_present_inv _ _ _ _ HI Hk). simpl. rewrite Hk.
    destruct (inv_index _ HI _ _ Hk) as [Hp [v0 Hv0]].
    rewrite list_lookup_insert_eq; [done|]. by eapply lookup_lt_Some.
  - rewrite (setitem_absent _ _ _ Hk). simpl. rewrite lookup_insert_eq.
    replace (Z.to_nat (last_index s + 1)) with (length (_values s))
      by (pose proof (inv_len _ HI); lia).
    by rewrite lookup_app_r, Nat.sub_diag.
Qed.

Lemma delitem_getitem_other s k k' :
  Inv s → present k s → k' ≠ k →
  (__getitem__ k' (__delitem__ k s).2).1 = (__getitem__ k' s).1.
Proof.
  intros HI [p Hk] Hne. pose proof (Inv_delitem _ k HI) as HI'.
  rewrite (getitem_Inv _ _ HI'), (getitem_Inv _ _ HI). simpl.
  destruct (delitem_present_inv _ _ _ HI Hk) as (l & mk & mv & Hl & Heq).
  rewrite Heq in *. clear Heq.
  destruct (Inv_last_slot _ _ _ _ HI Hl) as [Hli Hmk].
  pose proof (Inv_index_range _ _ _ HI Hk) as Hp. unfold count in Hp.
  destruct (decide (p = last_index s)) as [->|Hnl]; simpl in *.
  - rewrite lookup_delete_ne by done.
    destruct (_keys s !! k') as [q|] eqn:Hk'; [|done].
    pose proof (Inv_index_range _ _ _ HI Hk') as Hq. unfold count in Hq.
    assert (q ≠ last_index s).
    { intros ->. apply Hne. exact (Inv_index_inj _ _ _ _ HI Hk' Hk). }
    rewrite Hl, lookup_app_l by lia. done.
  - rewrite lookup_delete_ne by done.
    destruct (decide (mk = k')) as [<-|Hne'].
    + rewrite lookup_insert_eq, Hmk.
      rewrite list_lookup_insert_eq by lia.
      by rewrite Hl, Hli, Nat2Z.id, lookup_app_r, Nat.sub_diag.
    + rewrite lookup_insert_ne by done.
      destruct (_keys s !! k') as [q|] eqn:Hk'; [|done].
      pose proof (Inv_index_range _ _ _ HI Hk') as Hq. unfold count in Hq.
      assert (q ≠ last_index s).
      { intros ->. apply Hne'. exact (Inv_index_inj _ _ _ _ HI Hmk Hk'). }
      assert (q ≠ p).
      { intros ->. apply Hne. exact (Inv_index_inj _ _ _ _ HI Hk' Hk). }
      rewrite list_lookup_insert_ne by lia.
      rewrite Hl, lookup_app_l by lia. done.
Qed.

Lemma delitem_absent_after s k :
  Inv s → present k s → _keys (__delitem__ k s).2 !! k = None.
Proof.
  intros HI [p Hk].
  destruct (delitem_present_inv _ _ _ HI Hk) as (l & mk & mv & Hl & ->).
  destruct (decide (p = last_index s)); simpl; apply lookup_delete_eq.
Qed.

(** *** Insert/update and lookup *)

(** C5: on a container satisfying the invariants, [set(k, v)] returns and
    afterwards [get(k)] returns [v]; the length grows by exactly 1 when [k]
    was absent and is unchanged when [k] was present, in which case the
    Index is untouched (every slot position unchanged) and the entry is
    overwritten at the key's own slot. *)
Theorem setitem_then_getitem s k v :
  Invariants s →
  let s' := (__setitem__ k v s).2 in
  (__setitem__ k v s).1 = Returns tt ∧
  __getitem__ k s' = (Returns v, s') ∧
  __len__ s = (Returns (count s), s) ∧
  (¬ present k s → __len__ s' = (Returns (count s + 1), s')) ∧
  (present k s →
     __len__ s' = (Returns (count s), s') ∧
     _keys s' = _keys s ∧
     ∃ p, _keys s !! k = Some p ∧
          _values s' = <[Z.to_nat p := (k, v)]> (_values s)).
Proof.
  intros HI%Invariants_Inv. simpl.
  split; [|split; [by apply setitem_getitem_same|split; [done|split]]].
  - destruct (_keys s !! k) as [p|] eqn:Hk.
    + by rewrite (setitem_present_inv _ _ _ _ HI Hk).
    + by rewrite (setitem_absent _ _ _ Hk).
  - intros Hk%present_None. by rewrite (setitem_absent _ _ _ Hk).
  - intros [p Hk]. rewrite (setitem_present_inv _ _ _ _ HI Hk). simpl.
    split; [done|]. split; [done|]. by exists p.
Qed.

(** *** Delete *)

(** C3: on a container satisfying the invariants, [remove(k)] of a present
    key returns, leaves [k] absent and the length smaller by exactly 1;
    [remove(k)] of an absent key raises KeyNotFound and the instance is the
    one it started from: neither the Index nor the Slots was touched. *)
Theorem delitem_present_or_absent s k :
  Invariants s →
  (present k s →
     let s' := (__delitem__ k s).2 in
     (__delitem__ k s).1 = Returns tt ∧
     ¬ present k s' ∧
     __contains__ k s' = (Returns false, s') ∧
     __getitem__ k s' = (Raises (missing_error k), s') ∧
     __len__ s' = (Returns (count s - 1), s')) ∧
  (¬ present k s → __delitem__ k s = (Raises (missing_error k), s)).
Proof.
  intros HI%Invariants_Inv. split.
  - intros Hpr. simpl.
    pose proof (delitem_absent_after _ _ HI Hpr) as Habs.
    pose proof (Inv_delitem _ k HI) as HI'.
    destruct Hpr as [p Hk].
    destruct (delitem_present_inv _ _ _ HI Hk) as (l & mk & mv & Hl & Heq).
    split; [by rewrite Heq|]. split; [by apply present_None|].
    split; [|split].
    + rewrite (contains_Inv _ _ HI').
      rewrite bool_decide_eq_false_2; [done|]. by apply present_None.
    + by apply getitem_absent.
    + rewrite len_eq. do 2 f_equal. unfold count. rewrite Heq.
      destruct (decide (p = last_index s)); simpl; lia.
  - intros Hk%present_None. by apply delitem_absent.
Qed.

(** C4: frame property of deletion. After [remove(k)] of a present key,
    every other key that was present is still present and [get] returns
    for it the value it returned before. *)
Theorem delitem_frame s k k' :
  Invariants s → present k s → present k' s → k' ≠ k →
  let s' := (__delitem__ k s).2 in
  (__delitem__ k s).1 = Returns tt ∧
  present k' s' ∧
  ∃ v, __getitem__ k' s = (Returns v, s) ∧ __getitem__ k' s' = (Returns v, s').
Proof.
  intros HI%Invariants_Inv Hpr [q Hk'] Hne. simpl.
  pose proof (Inv_delitem _ k HI) as HI'.
  pose proof (delitem_getitem_other _ _ _ HI Hpr Hne) as Hsame.
  destruct (getitem_present_inv _ _ _ HI Hk') as (v & Hv & Hget).
  rewrite Hget in Hsame. simpl in Hsame.
  split.
  { destruct Hpr as [p Hk].
    by destruct (delitem_present_inv _ _ _ HI Hk) as (l & mk & mv & Hl & ->). }
  assert (__getitem__ k' (__delitem__ k s).2 = (Returns v, (__delitem__ k s).2))
    as Hget'.
  { rewrite <- Hsame. rewrite <- (getitem_state (__delitem__ k s).2 k') at 3.
    by destruct (__getitem__ k' (__delitem__ k s).2). }
  split; [|by exists v].
  destruct (decide (present k' (__delitem__ k s).2)) as [|Hn%present_None];
    [done|].
  rewrite (getitem_absent _ _ Hn) in Hget'. discriminate.
Qed.

(** *** Random selection *)

Lemma randint_count s i :
  randint 0 (last_index s) i = true ↔ 0 ≤ i < count s.
Proof.
  unfold randint, count. rewrite andb_true_iff, !Z.leb_le. lia.
Qed.

Lemma random_key_empty s i :
  count s = 0 → random_key i s = (Raises empty_error, s).
Proof.
  intros Hc. unfold random_key, mbind, M_bind. rewrite len_eq, Hc. done.
Qed.

Lemma random_key_slot s i k v :
  count s ≠ 0 → 0 ≤ i → _values s !! Z.to_nat i = Some (k, v) →
  random_key i s = (Returns k, s).
Proof.
  intros Hc Hi Hv. unfold random_key, mbind, M_bind. rewrite len_eq.
  destruct (count s =? 0) eqn:E; [lia|].
  unfold values_getitem. by rewrite (list_getitem_front _ _ _ Hi Hv).
Qed.

Lemma Inv_after ops s : Inv s → Inv (after ops s).
Proof.
  revert s. induction ops as [|o ops IH]; intros s HI; [done|].
  simpl. apply IH. destruct o; [by apply Inv_setitem|by apply Inv_delitem].
Qed.

Lemma Inv_empty_keys s k : Inv s → count s = 0 → _keys s !! k = None.
Proof.
  intros HI Hc. destruct (_keys s !! k) as [p|] eqn:Hk; [|done].
  pose proof (Inv_index_range _ _ _ HI Hk). lia.
Qed.

(** C1: whatever inserts and deletes came before, [random_key] raises
    EmptyContainer when the count is 0; otherwise the draws are exactly the
    integers of [0, count), the draw [i] returns the key stored at slot
    [i], a present key, and every present key is returned by exactly one
    draw, so a uniform draw is uniform over the present keys. *)
Theorem random_key_uniform ops s0 :
  Invariants s0 →
  let s := after ops s0 in
  Invariants s ∧
  (count s = 0 → ∀ i, random_key i s = (Raises empty_error, s)) ∧
  (count s ≠ 0 →
     (∀ i, randint 0 (last_index s) i = true ↔ 0 ≤ i < count s) ∧
     (∀ i, randint 0 (last_index s) i = true →
        ∃ k v, _values s !! Z.to_nat i = Some (k, v) ∧
               random_key i s = (Returns k, s) ∧ present k s) ∧
     (∀ k, present k s →
        ∃ i, randint 0 (last_index s) i = true ∧
             random_key i s = (Returns k, s) ∧
             ∀ j, randint 0 (last_index s) j = true →
                  random_key j s = (Returns k, s) → j = i)).
Proof.
  intros HI0%Invariants_Inv. simpl.
  pose proof (Inv_after ops _ HI0) as HI. set (s := after ops s0) in *.
  split; [by apply Inv_Invariants|].
  split; [intros Hc i; by apply random_key_empty|].
  intros Hc.
  assert (∀ i, randint 0 (last_index s) i = true →
            ∃ k v, _values s !! Z.to_nat i = Some (k, v) ∧
                   random_key i s = (Returns k, s) ∧
                   _keys s !! k = Some i) as Hdraw.
  { intros i Hi%randint_count. unfold count in Hi.
    rewrite (inv_len _ HI) in Hi.
    destruct (lookup_lt_is_Some_2 (_values s) (Z.to_nat i)) as [[k v] Hv];
      [lia|].
    exists k, v. split; [done|].
    split; [apply (random_key_slot _ _ _ v); [done|lia|done]|].
    rewrite (inv_slots _ HI _ _ _ Hv). f_equal. lia. }
  split; [apply randint_count|]. split.
  - intros i Hi. destruct (Hdraw i Hi) as (k & v & Hv & Hr & Hk).
    exists k, v. split; [done|]. split; [done|]. by exists i.
  - intros k [p Hk].
    pose proof (Inv_index_range _ _ _ HI Hk) as Hp.
    destruct (inv_index _ HI _ _ Hk) as [_ [v Hv]].
    exists p. split; [by apply randint_count|].
    split; [apply (random_key_slot _ _ _ v); [done|lia|done]|].
    intros j Hj Hrj. destruct (Hdraw j Hj) as (k' & v' & Hv' & Hr' & Hk').
    rewrite Hr' in Hrj. injection Hrj as ->. congruence.
Qed.

(** C6, as the code has it: on a non-empty container, for every draw,
    [random_item] returns the pair of the key [random_key] yields and [get]
    of that key, and [random_value] returns that value; on an empty
    container [random_key], [random_value] and [random_item] raise
    [KeyError("RandomDict is empty")], [pop] without a default raises
    [KeyError(key)] and [popitem] raises [KeyError()], all of the one class
    the code has for EmptyContainer; [pop] with a default does not fail: it
    returns the default and leaves the container empty. *)
Theorem random_value_item_derived s :
  Invariants s →
  (count s ≠ 0 → ∀ i, randint 0 (last_index s) i = true →
     ∃ k v, random_key i s = (Returns k, s) ∧
            __getitem__ k s = (Returns v, s) ∧
            random_item i s = (Returns (k, v), s) ∧
            random_value i s = (Returns v, s)) ∧
  (count s = 0 → ∀ i k,
     random_key i s = (Raises empty_error, s) ∧
     random_value i s = (Raises empty_error, s) ∧
     random_item i s = (Raises empty_error, s) ∧
     pop k None s = (Raises (Exc KeyError (ArgKey k)), s) ∧
     popitem s = (Raises (Exc KeyError ArgNone), s) ∧
     (∀ d, pop k (Some d) s = (Returns d, s)) ∧
     raised EmptyContainer (random_key i s).1 ∧
     raised EmptyContainer (random_value i s).1 ∧
     raised EmptyContainer (random_item i s).1 ∧
     raised EmptyContainer (pop k None s).1 ∧
     raised EmptyContainer (popitem s).1).
Proof.
  intros HI%Invariants_Inv. split.
  - intros Hc i Hi%randint_count. unfold count in Hi.
    rewrite (inv_len _ HI) in Hi.
    destruct (lookup_lt_is_Some_2 (_values s) (Z.to_nat i)) as [[k v] Hv];
      [lia|].
    assert (random_key i s = (Returns k, s)) as Hr
      by (apply (random_key_slot _ _ _ v); [done|lia|done]).
    assert (__getitem__ k s = (Returns v, s)) as Hg.
    { pose proof (inv_slots _ HI _ _ _ Hv) as Hk.
      destruct (getitem_present_inv _ _ _ HI Hk) as (v' & Hv' & ->).
      rewrite Nat2Z.id in Hv'. congruence. }
    exists k, v. split; [done|]. split; [done|].
    unfold random_item, random_value, mbind, M_bind. by rewrite Hr, Hg.
  - intros Hc i k. pose proof (random_key_empty _ i Hc) as Hr.
    assert (_keys s = ∅) as Hempty.
    { apply map_empty. intros k'. by apply Inv_empty_keys. }
    assert (pop k None s = (Raises (Exc KeyError (ArgKey k)), s)) as Hpop.
    { unfold pop, try_except_else.
      rewrite (getitem_absent _ _ (Inv_empty_keys _ k HI Hc)). done. }
    assert (popitem s = (Raises (Exc KeyError ArgNone), s)) as Hpopitem.
    { unfold popitem, try_except_else, mbind, M_bind, __iter__.
      rewrite Hempty, dom_empty_L, elements_empty. done. }
    assert (∀ d, pop k (Some d) s = (Returns d, s)) as Hdflt.
    { intros d. unfold pop, try_except_else.
      rewrite (getitem_absent _ _ (Inv_empty_keys _ k HI Hc)). done. }
    rewrite Hpop, Hpopitem.
    unfold random_item, random_value, mbind, M_bind. rewrite Hr. done.
Qed.

(** C10: the empty-container failure and the missing-key failure are one
    error class. [random_key] on an empty container, and [get] and
    [remove] of a key absent from any container, empty or not, all raise
    KeyError; the instances differ only in the argument attached (a
    message against the key), so a handler selected by class catches
    either all of them or none. *)
Theorem empty_and_missing_same_class (s1 s2 : RD) k i :
  count s1 = 0 → ¬ present k s2 →
  ∃ e1 e2 e3,
    random_key i s1 = (Raises e1, s1) ∧
    __getitem__ k s2 = (Raises e2, s2) ∧
    __delitem__ k s2 = (Raises e3, s2) ∧
    exc_type e1 = KeyError ∧ exc_type e2 = KeyError ∧ exc_type e3 = KeyError ∧
    exc_arg e1 = ArgMsg "RandomDict is empty" ∧
    exc_arg e2 = ArgKey k ∧ exc_arg e3 = ArgKey k ∧
    (∀ c, exc_type e1 = c ↔ exc_type e2 = c) ∧
    (∀ c, exc_type e1 = c ↔ exc_type e3 = c).
Proof.
  intros Hc Hk%present_None.
  exists empty_error, (missing_error k), (missing_error k).
  rewrite (random_key_empty _ _ Hc), (getitem_absent _ _ Hk),
    (delitem_absent _ _ Hk). done.
Qed.

(** *** Bulk insertion: [update], construction, [fromkeys] *)

Lemma setitem_returns s k v :
  Inv s → __setitem__ k v s = (Returns tt, (__setitem__ k v s).2).
Proof.
  intros HI. destruct (_keys s !! k) as [p|] eqn:Hk.
  - by rewrite (setitem_present_inv _ _ _ _ HI Hk).
  - by rewrite (setitem_absent _ _ _ Hk).
Qed.

Lemma setitem_dom s k v :
  Inv s → dom (_keys (__setitem__ k v s).2) = {[k]} ∪ dom (_keys s).
Proof.
  intros HI. destruct (_keys s !! k) as [p|] eqn:Hk.
  - rewrite (setitem_present_inv _ _ _ _ HI Hk). simpl.
    symmetry. apply subseteq_union_1_L, singleton_subseteq_l.
    apply elem_of_dom. eauto.
  - rewrite (setitem_absent _ _ _ Hk). simpl. apply dom_insert_L.
Qed.

Lemma for_each_app {A} (xs ys : list A) (body : A → M unit) s :
  for_each (xs ++ ys) body s = (for_each xs body ;; for_each ys body) s.
Proof.
  revert s. induction xs as [|x xs IH]; intros s; simpl; [done|].
  unfold mbind, M_bind in *. destruct (body x s) as [[[]|e] s1]; [|done].
  apply IH.
Qed.

Lemma for_each_fmap {A B} (f : A → B) (xs : list A) (body : B → M unit) s :
  for_each (f <$> xs) body s = for_each xs (body ∘ f) s.
Proof.
  revert s. induction xs as [|x xs IH]; intros s; simpl; [done|].
  unfold mbind, M_bind in *. destruct (body (f x) s) as [[[]|e] s1]; [|done].
  apply IH.
Qed.

Lemma for_each_setitem (pairs : list (K * V)) s :
  Inv s →
  ∃ s', for_each pairs (λ kv, __setitem__ kv.1 kv.2) s = (Returns tt, s') ∧
        Inv s' ∧
        dom (_keys s') = dom (_keys s) ∪ list_to_set pairs.*1 ∧
        ∀ k, (__getitem__ k s').1 =
               match last_binding pairs k with
               | Some v => Returns v
               | None => (__getitem__ k s).1
               end.
Proof.
  revert s. induction pairs as [|[k0 v0] rest IH]; intros s HI.
  - exists s. split; [done|]. split; [done|]. split; [|done].
    simpl. by rewrite union_empty_r_L.
  - pose proof (Inv_setitem _ k0 v0 HI) as HI1.
    destruct (IH _ HI1) as (s' & Hrun & HI' & Hdom & Hget).
    exists s'. split; [|split; [done|split]].
    + simpl. unfold mbind, M_bind.
      rewrite (setitem_returns _ _ _ HI). exact Hrun.
    + rewrite Hdom, (setitem_dom _ _ _ HI), fmap_cons, list_to_set_cons.
      simpl. by rewrite (comm_L _ {[k0]}), (assoc_L _).
    + intros k. rewrite Hget. simpl.
      destruct (last_binding rest k) as [v'|]; [done|].
      destruct (decide (k0 = k)) as [->|Hne].
      * by rewrite (setitem_getitem_same _ _ _ HI).
      * by apply setitem_getitem_other.
Qed.

Lemma last_binding_app (a b : list (K * V)) k :
  last_binding (a ++ b) k =
    match last_binding b k with
    | Some v => Some v
    | None => last_binding a k
    end.
Proof.
  induction a as [|[k0 v0] a IH]; simpl.
  - by destruct (last_binding b k).
  - rewrite IH. by destruct (last_binding b k).
Qed.

Lemma init_state (args : list (list (K * V))) kwargs s0 :
  __init__ args kwargs s0 = update args kwargs empty_rd.
Proof. done. Qed.

Lemma update_pairs (args : list (list (K * V))) kwargs s :
  (length args ≤ 1)%nat →
  update args kwargs s =
    for_each (concat args ++ kwargs) (λ kv, __setitem__ kv.1 kv.2) s.
Proof.
  intros Hlen. destruct args as [|other [|? ?]]; simpl in *; [done| |lia].
  rewrite app_nil_r. by rewrite for_each_app.
Qed.

Lemma update_too_many (a b : list (K * V)) args kwargs s :
  ∃ msg, update (a :: b :: args) kwargs s =
           (Raises (Exc TypeError (ArgMsg msg)), s).
Proof. by eexists. Qed.

Lemma bind_kwargs_ok (kwargs : list (string * V)) :
  "self" ∉ kwargs.*1 → bind_kwargs (K:=K) kwargs = Returns (kw_items kwargs).
Proof. intros Hn. unfold bind_kwargs. by rewrite bool_decide_eq_false_2. Qed.

Lemma call_unbound (args : list (list (K * V))) (kwargs : list (string * V)) :
  "self" ∉ kwargs.*1 →
  RandomDict_call args kwargs =
    match __init__ args (kw_items kwargs) blank with
    | (Returns _, rd) => Returns rd
    | (Raises e, _) => Raises e
    end.
Proof. intros Hn. unfold RandomDict_call. by rewrite (bind_kwargs_ok _ Hn). Qed.

Lemma call_self_keyword (args : list (list (K * V))) (kwargs : list (string * V)) :
  "self" ∈ kwargs.*1 → raised TypeError (RandomDict_call args kwargs).
Proof.
  intros Hin. unfold RandomDict_call, bind_kwargs.
  by rewrite bool_decide_eq_true_2.
Qed.

Lemma call_no_arguments :
  RandomDict_call (K:=K) (V:=V) [] [] = Returns empty_rd.
Proof. rewrite call_unbound; [done|]. apply not_elem_of_nil. Qed.

(** C7, as the code has it: construction takes zero or one positional
    source plus keyword bindings, none of them named [self], and always
    returns for them; the container satisfies the invariants and holds, for
    each key, the value of the last pair with that key in the source
    followed by the keyword bindings (keyword bindings override the
    source); with two or more positional sources, or with a keyword named
    [self], construction raises TypeError. *)
Theorem construction_one_source
    (args : list (list (K * V))) (kwargs : list (string * V)) :
  ((length args ≤ 1)%nat → "self" ∉ kwargs.*1 → NoDup kwargs.*1 →
     ∃ rd, RandomDict_call args kwargs = Returns rd ∧
           Invariants rd ∧
           ∀ k, __getitem__ k rd =
                  (lookup_result
                     (last_binding (concat args ++ kw_items kwargs) k) k, rd)) ∧
  ((2 ≤ length args)%nat ∨ "self" ∈ kwargs.*1 →
     raised TypeError (RandomDict_call args kwargs)).
Proof.
  split.
  - intros Hlen Hself _. rewrite (call_unbound _ _ Hself).
    rewrite init_state, (update_pairs _ _ _ Hlen).
    destruct (for_each_setitem (concat args ++ kw_items kwargs) empty_rd
                Inv_empty) as (rd & Hrun & HI & _ & Hget).
    exists rd. rewrite Hrun. split; [done|].
    split; [by apply Inv_Invariants|].
    intros k. specialize (Hget k).
    rewrite <- (getitem_state rd k) at 2.
    destruct (__getitem__ k rd) as [r rd']. simpl in *. f_equal.
    rewrite Hget.
    destruct (last_binding (concat args ++ kw_items kwargs) k); [done|].
    by rewrite getitem_absent.
  - intros [Hlen|Hself]; [|by apply call_self_keyword].
    destruct (decide ("self" ∈ kwargs.*1)) as [Hin|Hnin];
      [by apply call_self_keyword|].
    destruct args as [|a [|b args]]; simpl in Hlen; [lia|lia|].
    rewrite (call_unbound _ _ Hnin), init_state.
    by destruct (update_too_many a b args (kw_items kwargs) empty_rd)
      as [msg ->].
Qed.

Lemma last_binding_const (keys : list K) v k :
  last_binding ((λ key, (key, v)) <$> keys) k =
    if decide (k ∈ keys) then Some v else None.
Proof.
  induction keys as [|k0 keys IH].
  - simpl. destruct (decide (k ∈ [])) as [Hin|]; [|done].
    by apply not_elem_of_nil in Hin.
  - rewrite fmap_cons. cbn [last_binding].
    rewrite IH. destruct (decide (k ∈ keys)) as [Hin|Hnin].
    + destruct (decide (k ∈ k0 :: keys)) as [|Hn]; [done|].
      destruct Hn. by apply list_elem_of_further.
    + destruct (decide (k0 = k)) as [->|Hne].
      * destruct (decide (k ∈ k :: keys)) as [|Hn]; [done|].
        destruct Hn. apply list_elem_of_here.
      * destruct (decide (k ∈ k0 :: keys)) as [Hin|]; [|done].
        apply elem_of_cons in Hin as [->|Hin]; done.
Qed.

Lemma size_list_to_set_remove_dups (l : list K) :
  size (list_to_set l : gset K) = length (remove_dups l).
Proof.
  rewrite <- (size_list_to_set (C:=gset K) (remove_dups l))
    by apply NoDup_remove_dups.
  f_equal. apply set_eq. intros x.
  by rewrite !elem_of_list_to_set, elem_of_remove_dups.
Qed.

Lemma fromkeys_general (keys : list K) v :
  ∃ rd : RD,
    fromkeys keys v = Returns rd ∧ Inv rd ∧
    dom (_keys rd) = list_to_set keys ∧
    ∀ k, k ∈ keys → (__getitem__ k rd).1 = Returns v.
Proof.
  unfold fromkeys.
  rewrite call_no_arguments.
  pose proof (for_each_fmap (λ key, (key, v)) keys
                (λ kv, __setitem__ kv.1 kv.2) empty_rd) as Hmap.
  destruct (for_each_setitem ((λ key, (key, v)) <$> keys) empty_rd Inv_empty)
    as (rd & Hrun & HI & Hdom & Hget).
  rewrite Hrun in Hmap. change (for_each keys _ empty_rd) with
    (for_each keys ((λ kv : K * V, __setitem__ kv.1 kv.2) ∘ (λ key, (key, v)))
       empty_rd).
  rewrite <- Hmap. exists rd. split; [done|]. split; [done|]. split.
  - rewrite Hdom.
    assert (((λ key, (key, v)) <$> keys).*1 = keys) as ->.
    { clear. induction keys as [|k0 keys IH]; [done|].
      rewrite !fmap_cons, IH. done. }
    simpl. by rewrite dom_empty_L, union_empty_l_L.
  - intros k Hin. rewrite Hget, last_binding_const.
    by destruct (decide (k ∈ keys)).
Qed.

(** *** Equality *)

Lemma dict_of_pairs_lookup (pairs : list (K * V)) k :
  dict_of_pairs pairs !! k = last_binding pairs k.
Proof.
  unfold dict_of_pairs.
  assert (∀ d : gmap K V,
            foldl (λ d kv, <[kv.1 := kv.2]> d) d pairs !! k =
              match last_binding pairs k with
              | Some v => Some v
              | None => d !! k
              end) as Hgen.
  { induction pairs as [|[k0 v0] rest IH]; intros d; simpl; [done|].
    rewrite IH. destruct (last_binding rest k); [done|].
    destruct (decide (k0 = k)) as [->|Hne].
    - by rewrite lookup_insert_eq.
    - by rewrite lookup_insert_ne. }
  rewrite Hgen. by destruct (last_binding pairs k).
Qed.

Lemma items_of_Inv s (keys : list K) :
  Inv s → (∀ k, k ∈ keys → present k s) →
  ∃ L, items_of keys s = (Returns L, s) ∧
       ∀ k, last_binding L k =
              if decide (k ∈ keys) then returned (__getitem__ k s).1 else None.
Proof.
  intros HI. induction keys as [|k0 keys IH]; intros Hpr.
  - exists []. split; [done|]. intros k. simpl.
    destruct (decide (k ∈ [])) as [Hin|]; [|done].
    by apply not_elem_of_nil in Hin.
  - destruct IH as (L & HL & Hlast).
    { intros k Hin. apply Hpr. by apply list_elem_of_further. }
    destruct (Hpr k0 (list_elem_of_here _ _)) as [p Hk0].
    destruct (getitem_present_inv _ _ _ HI Hk0) as (v0 & _ & Hg0).
    exists ((k0, v0) :: L). split.
    + simpl. unfold mbind, M_bind. by rewrite Hg0, HL.
    + intros k. simpl. rewrite Hlast.
      destruct (decide (k ∈ keys)) as [Hin|Hnin].
      * destruct (Hpr k (list_elem_of_further _ k0 _ Hin)) as [q Hk].
        destruct (getitem_present_inv _ _ _ HI Hk) as (v & _ & ->). simpl.
        destruct (decide (k ∈ k0 :: keys)) as [|Hn]; [done|].
        destruct Hn. by apply list_elem_of_further.
      * destruct (decide (k0 = k)) as [->|Hne].
        -- rewrite Hg0. simpl.
           destruct (decide (k ∈ k :: keys)) as [|Hn]; [done|].
           destruct Hn. apply list_elem_of_here.
        -- destruct (decide (k ∈ k0 :: keys)) as [Hin|]; [|done].
           apply elem_of_cons in Hin as [->|Hin]; done.
Qed.

Lemma items_Inv s :
  Inv s →
  ∃ L, items s = (Returns L, s) ∧
       ∀ k, dict_of_pairs L !! k = returned (__getitem__ k s).1.
Proof.
  intros HI.
  destruct (items_of_Inv s (elements (dom (_keys s))) HI) as (L & HL & Hlast).
  { intros k Hin. by apply elem_of_elements, elem_of_dom in Hin. }
  exists L. split; [done|]. intros k.
  rewrite dict_of_pairs_lookup, Hlast.
  destruct (decide (k ∈ elements (dom (_keys s)))) as [Hin|Hnin]; [done|].
  rewrite elem_of_elements, elem_of_dom in Hnin.
  apply present_None in Hnin. by rewrite (getitem_absent _ _ Hnin).
Qed.

Lemma eq_Inv (sa sb : RD) :
  Inv sa → Inv sb →
  ∃ b, __eq__ sb sa = (Returns b, sa) ∧
       (b = true ↔
          ∀ k, returned (__getitem__ k sa).1 = returned (__getitem__ k sb).1).
Proof.
  intros Ha Hb.
  destruct (items_Inv _ Ha) as (La & HLa & Hda).
  destruct (items_Inv _ Hb) as (Lb & HLb & Hdb).
  exists (bool_decide (dict_of_pairs La = dict_of_pairs Lb)). split.
  - unfold __eq__, mbind, M_bind, on_other. by rewrite HLa, HLb.
  - rewrite bool_decide_eq_true. split.
    + intros Heq k. by rewrite <- Hda, <- Hdb, Heq.
    + intros Hall. apply map_eq. intros k. by rewrite Hda, Hdb.
Qed.

Lemma same_content_lookup (sa sb : RD) :
  Inv sa → Inv sb →
  same_content sa sb ↔
    ∀ k, returned (__getitem__ k sa).1 = returned (__getitem__ k sb).1.
Proof.
  intros Ha Hb. split.
  - intros [Hkeys Hvals] k.
    destruct (decide (present k sa)) as [[p Hk]|Hn].
    + destruct (proj1 (Hkeys k) (ex_intro _ p Hk)) as [q Hk'].
      destruct (getitem_present_inv _ _ _ Ha Hk) as (v & _ & Hg).
      destruct (getitem_present_inv _ _ _ Hb Hk') as (v' & _ & Hg').
      rewrite Hg, Hg'. simpl. f_equal.
      apply (Hvals k); [by rewrite Hg|by rewrite Hg'].
    + assert (¬ present k sb) as Hn' by (by rewrite <- Hkeys).
      apply present_None in Hn, Hn'.
      by rewrite (getitem_absent _ _ Hn), (getitem_absent _ _ Hn').
  - intros Hall. split.
    + intros k. specialize (Hall k).
      rewrite (getitem_Inv _ _ Ha), (getitem_Inv _ _ Hb) in Hall.
      simpl in Hall. unfold present. split; intros [p Hk].
      * destruct (inv_index _ Ha _ _ Hk) as [_ [v Hv]].
        rewrite Hk, Hv in Hall. simpl in Hall.
        destruct (_keys sb !! k); [eauto|done].
      * destruct (inv_index _ Hb _ _ Hk) as [_ [v Hv]].
        rewrite Hk, Hv in Hall. simpl in Hall.
        destruct (_keys sa !! k); [eauto|done].
    + intros k v1 v2 H1 H2. specialize (Hall k).
      rewrite H1, H2 in Hall. simpl in Hall. congruence.
Qed.

(** *** Instances on the heap *)

Local Abbreviation heap := (gmap positive (@object K _ _ V)).

Lemma view_points_to (h : heap) self s :
  view h self = Some s ↔ ∃ kr vr, points_to h self kr vr s.
Proof.
  unfold view, points_to. split.
  - destruct (h !! self) as [[| |kr vr li]|] eqn:Hs; try done.
    destruct (h !! kr) as [[d| |]|] eqn:Hk; try done.
    destruct (h !! vr) as [[|l|]|] eqn:Hv; try done.
    intros [= <-]. exists kr, vr. simpl. by rewrite Hk, Hv.
  - intros (kr & vr & -> & -> & ->). by destruct s.
Qed.

Lemma call_points_to {A} (h : heap) self kr vr s (m : M A) :
  points_to h self kr vr s →
  let h' := <[self := OInstance kr vr (last_index (m s).2)]>
              (<[vr := OList (_values (m s).2)]>
                 (<[kr := ODict (_keys (m s).2)]> h)) in
  call self m h = Some ((m s).1, h') ∧ points_to h' self kr vr (m s).2.
Proof.
  intros (Hs & Hk & Hv). simpl. split.
  - unfold call. rewrite Hs, Hk, Hv. destruct s as [d l li]. simpl.
    by destruct (m (mkRandomDict d l li)).
  - assert (self ≠ kr) by (intros ->; congruence).
    assert (self ≠ vr) by (intros ->; congruence).
    assert (vr ≠ kr) by (intros ->; congruence).
    unfold points_to. rewrite lookup_insert_eq.
    rewrite lookup_insert_ne, lookup_insert_ne, lookup_insert_eq by done.
    rewrite lookup_insert_ne, lookup_insert_eq by done. done.
Qed.

(** A call on one instance leaves another instance alone when the two do
    not share their dict or their list. *)
Lemma call_frame {A} (h : heap) a ka va sa b kb vb sb (m : M A) :
  points_to h a ka va sa → points_to h b kb vb sb →
  a ≠ b → ka ≠ kb → va ≠ vb →
  points_to (<[a := OInstance ka va (last_index (m sa).2)]>
               (<[va := OList (_values (m sa).2)]>
                  (<[ka := ODict (_keys (m sa).2)]> h))) b kb vb sb.
Proof.
  intros (Ha & Hka & Hva) (Hb & Hkb & Hvb) Hab Hk Hv.
  assert (a ≠ kb) by (intros ->; congruence).
  assert (a ≠ vb) by (intros ->; congruence).
  assert (va ≠ b) by (intros ->; congruence).
  assert (va ≠ kb) by (intros ->; congruence).
  assert (ka ≠ b) by (intros ->; congruence).
  assert (ka ≠ vb) by (intros ->; congruence).
  unfold points_to. by rewrite !lookup_insert_ne by done.
Qed.

Lemma lookup_fresh_ne (h : heap) r o : h !! r = Some o → r ≠ fresh (dom h).
Proof.
  intros Hr ->. pose proof (is_fresh (dom h)) as Hf.
  apply not_elem_of_dom in Hf. congruence.
Qed.

Lemma new_RandomDict_nil (h : heap) :
  ∃ new kr0 vr0 h1,
    new_RandomDict [] [] h = Some (Returns new, h1) ∧
    points_to h1 new kr0 vr0 empty_rd ∧
    (∀ r o, h !! r = Some o → h1 !! r = Some o ∧ r ≠ new).
Proof.
  set (kr0 := fresh (dom h)). set (ha := <[kr0 := ODict ∅]> h).
  set (vr0 := fresh (dom ha)). set (hb := <[vr0 := OList []]> ha).
  set (new := fresh (dom hb)).
  set (hc := <[new := OInstance kr0 vr0 (-1)]> hb).
  assert (hb !! kr0 = Some (ODict ∅)) as Hk0.
  { unfold hb. rewrite lookup_insert_ne.
    - apply lookup_insert_eq.
    - apply not_eq_sym, (lookup_fresh_ne ha _ (ODict ∅)), lookup_insert_eq. }
  assert (hb !! vr0 = Some (OList [])) as Hv0 by apply lookup_insert_eq.
  assert (points_to hc new kr0 vr0 empty_rd) as Hpt.
  { unfold points_to, hc. rewrite lookup_insert_eq.
    rewrite !lookup_insert_ne; [done| |].
    - apply not_eq_sym, (lookup_fresh_ne hb _ _ Hv0).
    - apply not_eq_sym, (lookup_fresh_ne hb _ _ Hk0). }
  destruct (call_points_to hc new kr0 vr0 empty_rd (update [] []) Hpt)
    as [Hcall Hpt'].
  simpl in Hcall, Hpt'.
  eexists new, kr0, vr0, _. split; [|split; [exact Hpt'|]].
  - unfold new_RandomDict.
    rewrite (bind_kwargs_ok []) by apply not_elem_of_nil.
    unfold mbind, H_bind, alloc. simpl.
    fold kr0 ha vr0 hb new hc. by rewrite Hcall.
  - intros r o Hr.
    assert (r ≠ kr0) by (by apply (lookup_fresh_ne h _ o)).
    assert (ha !! r = Some o) as Hra by (unfold ha; by rewrite lookup_insert_ne).
    assert (r ≠ vr0) by (by apply (lookup_fresh_ne ha _ o)).
    assert (hb !! r = Some o) as Hrb by (unfold hb; by rewrite lookup_insert_ne).
    assert (r ≠ new) by (by apply (lookup_fresh_ne hb _ o)).
    split; [|done]. unfold hc. by rewrite !lookup_insert_ne by done.
Qed.

Lemma instance_of_eq (h : heap) self kr vr li :
  h !! self = Some (OInstance kr vr li) →
  instance_of self h = Some (Returns (kr, vr, li), h).
Proof. intros Hs. unfold instance_of. by rewrite Hs. Qed.

Lemma dict_at_eq (h : heap) r d :
  h !! r = Some (ODict d) → dict_at r h = Some (Returns d, h).
Proof. intros Hr. unfold dict_at. by rewrite Hr. Qed.

Lemma list_at_eq (h : heap) r l :
  h !! r = Some (OList l) → list_at r h = Some (Returns l, h).
Proof. intros Hr. unfold list_at. by rewrite Hr. Qed.

(** [copy] returns a new instance with a dict and a list of its own, both
    holding what the source's hold; the source is untouched. *)
Lemma copy_points_to (h : heap) c1 kr vr s :
  points_to h c1 kr vr s →
  ∃ c2 kr' vr' h',
    copy c1 h = Some (Returns c2, h') ∧
    points_to h' c1 kr vr s ∧ points_to h' c2 kr' vr' s ∧
    c2 ≠ c1 ∧ kr' ≠ kr ∧ vr' ≠ vr.
Proof.
  intros (Hc1 & Hkr & Hvr).
  destruct (new_RandomDict_nil h) as (new & kr0 & vr0 & h1 & Hnew & Hpt & Hold).
  destruct Hpt as (Hn1 & _ & _). simpl in Hn1.
  destruct (Hold _ _ Hc1) as [Hc1' Hc1n].
  destruct (Hold _ _ Hkr) as [Hkr' Hkrn].
  destruct (Hold _ _ Hvr) as [Hvr' Hvrn].
  set (kr' := fresh (dom h1)). set (h2 := <[kr' := ODict (_keys s)]> h1).
  set (h3 := <[new := OInstance kr' vr0 (-1)]> h2).
  set (vr' := fresh (dom h3)). set (h4 := <[vr' := OList (_values s)]> h3).
  set (h5 := <[new := OInstance kr' vr' (-1)]> h4).
  set (h6 := <[new := OInstance kr' vr' (last_index s)]> h5).
  assert (c1 ≠ kr') as E1 by (by apply (lookup_fresh_ne h1 _ _ Hc1')).
  assert (kr ≠ kr') as E2 by (by apply (lookup_fresh_ne h1 _ _ Hkr')).
  assert (vr ≠ kr') as E3 by (by apply (lookup_fresh_ne h1 _ _ Hvr')).
  assert (new ≠ kr') as E4 by (by apply (lookup_fresh_ne h1 _ _ Hn1)).
  assert (h3 !! c1 = Some (OInstance kr vr (last_index s))) as Hc3
    by (unfold h3, h2; by rewrite !lookup_insert_ne by done).
  assert (h3 !! kr = Some (ODict (_keys s))) as Hkr3
    by (unfold h3, h2; by rewrite !lookup_insert_ne by done).
  assert (h3 !! vr = Some (OList (_values s))) as Hvr3
    by (unfold h3, h2; by rewrite !lookup_insert_ne by done).
  assert (h3 !! new = Some (OInstance kr' vr0 (-1))) as Hn3
    by (unfold h3; apply lookup_insert_eq).
  assert (h3 !! kr' = Some (ODict (_keys s))) as Hk3.
  { unfold h3, h2. rewrite lookup_insert_ne by done. apply lookup_insert_eq. }
  assert (c1 ≠ vr') as F1 by (by apply (lookup_fresh_ne h3 _ _ Hc3)).
  assert (kr ≠ vr') as F2 by (by apply (lookup_fresh_ne h3 _ _ Hkr3)).
  assert (vr ≠ vr') as F3 by (by apply (lookup_fresh_ne h3 _ _ Hvr3)).
  assert (new ≠ vr') as F4 by (by apply (lookup_fresh_ne h3 _ _ Hn3)).
  assert (kr' ≠ vr') as F5 by (by apply (lookup_fresh_ne h3 _ _ Hk3)).
  exists new, kr', vr', h6. split; [|split; [|split]].
  - unfold copy, mbind, H_bind. rewrite Hnew. cbv beta iota.
    rewrite (instance_of_eq _ _ _ _ _ Hc1'). cbv beta iota.
    rewrite (dict_at_eq _ _ _ Hkr'). cbv beta iota.
    unfold alloc at 1. cbv beta iota zeta. fold kr' h2.
    rewrite (instance_of_eq h2 new kr0 vr0 (-1))
      by (unfold h2; by rewrite lookup_insert_ne by done).
    cbv beta iota. unfold set_instance at 1. cbv beta iota. fold h3.
    rewrite (list_at_eq _ _ _ Hvr3). cbv beta iota.
    unfold alloc at 1. cbv beta iota zeta. fold vr' h4.
    rewrite (instance_of_eq h4 new kr' vr0 (-1))
      by (unfold h4; by rewrite lookup_insert_ne by done).
    cbv beta iota. unfold set_instance at 1. cbv beta iota. fold h5.
    rewrite (instance_of_eq h5 new kr' vr' (-1))
      by (unfold h5; apply lookup_insert_eq).
    cbv beta iota. unfold set_instance at 1. cbv beta iota. fold h6. done.
  - unfold points_to, h6, h5, h4. by rewrite !lookup_insert_ne by done.
  - unfold points_to, h6, h5, h4. rewrite lookup_insert_eq.
    split; [done|]. split.
    + by rewrite !lookup_insert_ne by done.
    + rewrite !lookup_insert_ne by done. apply lookup_insert_eq.
  - done.
Qed.

Lemma heap_eq_view (h : heap) a b sa sb :
  view h a = Some sa → view h b = Some sb →
  ∃ h', heap_eq a b h = Some ((__eq__ sb sa).1, h').
Proof.
  intros Ha Hb. apply view_points_to in Ha as (ka & va & Ha).
  destruct (call_points_to h a ka va sa (__eq__ sb) Ha) as [Hcall _].
  unfold heap_eq. rewrite Hb. eauto.
Qed.

Lemma eq_same_content (sa sb : RD) :
  Invariants sa → Invariants sb →
  ∃ b, __eq__ sb sa = (Returns b, sa) ∧ (b = true ↔ same_content sa sb).
Proof.
  intros Ha%Invariants_Inv Hb%Invariants_Inv.
  destruct (eq_Inv sa sb Ha Hb) as (b & Heq & Hb').
  exists b. split; [done|]. by rewrite Hb', same_content_lookup.
Qed.

Lemma eq_false_at (sa sb : RD) k :
  Inv sa → Inv sb →
  returned (__getitem__ k sa).1 ≠ returned (__getitem__ k sb).1 →
  __eq__ sb sa = (Returns false, sa).
Proof.
  intros Ha Hb Hne. destruct (eq_Inv sa sb Ha Hb) as (b & Heq & Hb').
  rewrite Heq. destruct b; [|done]. destruct Hne. by apply Hb'.
Qed.

(** C8: [copy] returns a new container equal to its source, where two
    containers satisfying the invariants are equal exactly when they have
    the same keys with equal values. The copy shares neither dict nor list
    with the source: a [set] on the copy leaves the source as it was, so
    [get] on the source returns what it returned before, and a [set] of a
    different value for a shared key, on either container, makes the two
    unequal. *)
Theorem copy_equal_and_independent (h : heap) c1 s1 :
  view h c1 = Some s1 → Invariants s1 →
  ∃ c2 h1,
    copy c1 h = Some (Returns c2, h1) ∧ c2 ≠ c1 ∧
    view h1 c1 = Some s1 ∧ view h1 c2 = Some s1 ∧
    (∃ h2, heap_eq c1 c2 h1 = Some (Returns true, h2)) ∧
    (∀ k v, ∃ h2,
        call c2 (__setitem__ k v) h1 = Some (Returns tt, h2) ∧
        view h2 c1 = Some s1 ∧
        view h2 c2 = Some (__setitem__ k v s1).2 ∧
        ∃ h3, call c1 (__getitem__ k) h2 = Some ((__getitem__ k s1).1, h3)) ∧
    (∀ k v0 v, __getitem__ k s1 = (Returns v0, s1) → v ≠ v0 →
        (∃ h2 h3, call c2 (__setitem__ k v) h1 = Some (Returns tt, h2) ∧
                  heap_eq c1 c2 h2 = Some (Returns false, h3)) ∧
        (∃ h2 h3, call c1 (__setitem__ k v) h1 = Some (Returns tt, h2) ∧
                  heap_eq c1 c2 h2 = Some (Returns false, h3))) ∧
    (∀ sa sb : RD, Invariants sa → Invariants sb →
        ∃ b, __eq__ sb sa = (Returns b, sa) ∧ (b = true ↔ same_content sa sb)).
Proof.
  intros Hview HIs. pose proof (Invariants_Inv _ HIs) as HI.
  apply view_points_to in Hview as (kr & vr & Hpt).
  destruct (copy_points_to h c1 kr vr s1 Hpt)
    as (c2 & kr' & vr' & h1 & Hcopy & Hp1 & Hp2 & Hne & Hkne & Hvne).
  assert (view h1 c1 = Some s1) as Hv1 by (apply view_points_to; eauto).
  assert (view h1 c2 = Some s1) as Hv2 by (apply view_points_to; eauto).
  assert (∀ k v, ∃ h2,
            call c2 (__setitem__ k v) h1 = Some (Returns tt, h2) ∧
            view h2 c1 = Some s1 ∧
            view h2 c2 = Some (__setitem__ k v s1).2) as Hset2.
  { intros k v.
    destruct (call_points_to h1 c2 kr' vr' s1 (__setitem__ k v) Hp2)
      as [Hcall Hp2'].
    pose proof (call_frame h1 c2 kr' vr' s1 c1 kr vr s1 (__setitem__ k v)
                  Hp2 Hp1 Hne Hkne Hvne) as Hp1'.
    rewrite (setitem_returns _ _ _ HI) in Hcall at 1. simpl in Hcall.
    eexists. split; [exact Hcall|].
    split; apply view_points_to; eauto. }
  assert (∀ k v, ∃ h2,
            call c1 (__setitem__ k v) h1 = Some (Returns tt, h2) ∧
            view h2 c2 = Some s1 ∧
            view h2 c1 = Some (__setitem__ k v s1).2) as Hset1.
  { intros k v.
    destruct (call_points_to h1 c1 kr vr s1 (__setitem__ k v) Hp1)
      as [Hcall Hp1'].
    pose proof (call_frame h1 c1 kr vr s1 c2 kr' vr' s1 (__setitem__ k v)
                  Hp1 Hp2 (not_eq_sym Hne) (not_eq_sym Hkne) (not_eq_sym Hvne))
      as Hp2'.
    rewrite (setitem_returns _ _ _ HI) in Hcall at 1. simpl in Hcall.
    eexists. split; [exact Hcall|].
    split; apply view_points_to; eauto. }
  exists c2, h1. split; [done|]. split; [done|]. split; [done|].
  split; [done|]. split; [|split; [|split]].
  - destruct (heap_eq_view h1 c1 c2 s1 s1 Hv1 Hv2) as [h2 Heq].
    exists h2. rewrite Heq. f_equal. f_equal.
    destruct (eq_Inv s1 s1 HI HI) as (b & -> & Hb). simpl. f_equal.
    by apply Hb.
  - intros k v. destruct (Hset2 k v) as (h2 & Hcall & Hc1 & Hc2).
    exists h2. split; [done|]. split; [done|]. split; [done|].
    apply view_points_to in Hc1 as (kr1 & vr1 & Hc1).
    destruct (call_points_to h2 c1 kr1 vr1 s1 (__getitem__ k) Hc1) as [Hg _].
    eauto.
  - intros k v0 v Hg0 Hvne'.
    pose proof (Inv_setitem _ k v HI) as HI'.
    pose proof (setitem_getitem_same _ k v HI) as Hg.
    split.
    + destruct (Hset2 k v) as (h2 & Hcall & Hc1 & Hc2).
      destruct (heap_eq_view h2 c1 c2 _ _ Hc1 Hc2) as [h3 Heq].
      exists h2, h3. split; [done|]. rewrite Heq.
      rewrite (eq_false_at s1 _ k HI HI'); [done|].
      rewrite Hg0, Hg. simpl. congruence.
    + destruct (Hset1 k v) as (h2 & Hcall & Hc2 & Hc1).
      destruct (heap_eq_view h2 c1 c2 _ _ Hc1 Hc2) as [h3 Heq].
      exists h2, h3. split; [done|]. rewrite Heq.
      rewrite (eq_false_at _ s1 k HI' HI); [done|].
      rewrite Hg0, Hg. simpl. congruence.
  - apply eq_same_content.
Qed.

(** *** The invariants after every operation *)

Lemma random_key_state s i : (random_key i s).2 = s.
Proof.
  unfold random_key, mbind, M_bind. rewrite len_eq.
  destruct (count s =? 0); [done|].
  unfold values_getitem. by destruct (list_getitem (_values s) i).
Qed.

Lemma Inv_init (args : list (list (K * V))) kwargs s0 :
  Inv (__init__ args kwargs s0).2.
Proof.
  rewrite init_state. destruct args as [|a [|b args]].
  - rewrite update_pairs by (simpl; lia).
    by destruct (for_each_setitem (concat [] ++ kwargs) empty_rd Inv_empty)
      as (rd & -> & HI & _).
  - rewrite update_pairs by (simpl; lia).
    by destruct (for_each_setitem (concat [a] ++ kwargs) empty_rd Inv_empty)
      as (rd & -> & HI & _).
  - destruct (update_too_many a b args kwargs empty_rd) as [msg ->].
    apply Inv_empty.
Qed.

(** C2: on a container satisfying I1, I2 and I3, each public operation
    leaves a container satisfying them: [set], [remove], [get], length and
    [random_key] (whether they return or raise), [copy] (for the source and
    for the new container, which it always returns), construction and
    [fromkeys] (which always returns). *)
Theorem invariants_preserved s :
  Invariants s →
  (∀ k v, Invariants (__setitem__ k v s).2) ∧
  (∀ k, Invariants (__delitem__ k s).2) ∧
  (∀ k, Invariants (__getitem__ k s).2) ∧
  Invariants (__len__ s).2 ∧
  (∀ i, Invariants (random_key i s).2) ∧
  (∀ (h : heap) self, view h self = Some s →
     ∃ c h', copy self h = Some (Returns c, h') ∧
             (∃ s', view h' c = Some s' ∧ Invariants s') ∧
             (∃ s', view h' self = Some s' ∧ Invariants s')) ∧
  (∀ args kwargs (s0 : RD), Invariants (__init__ args kwargs s0).2) ∧
  (∀ args kwargs (rd : RD),
     RandomDict_call args kwargs = Returns rd → Invariants rd) ∧
  (∀ keys v, ∃ rd : RD, fromkeys keys v = Returns rd ∧ Invariants rd).
Proof.
  intros HIs. pose proof (Invariants_Inv _ HIs) as HI.
  split; [intros k v; by apply Inv_Invariants, Inv_setitem|].
  split; [intros k; by apply Inv_Invariants, Inv_delitem|].
  split; [intros k; by rewrite getitem_state|].
  split; [done|].
  split; [intros i; by rewrite random_key_state|].
  split; [|split; [|split]].
  - intros h self Hview. apply view_points_to in Hview as (kr & vr & Hpt).
    destruct (copy_points_to h self kr vr s Hpt)
      as (c2 & kr' & vr' & h1 & Hcopy & Hp1 & Hp2 & _).
    exists c2, h1. split; [done|].
    split; exists s; (split; [apply view_points_to; eauto|done]).
  - intros args kwargs s0. apply Inv_Invariants, Inv_init.
  - intros args kwargs rd. unfold RandomDict_call.
    destruct (bind_kwargs kwargs) as [kw|e]; [|done].
    pose proof (Inv_init args kw blank) as HI'.
    destruct (__init__ args kw blank) as [[[]|e] rd']; [|done].
    intros [= <-]. by apply Inv_Invariants.
  - intros keys v. destruct (fromkeys_general keys v) as (rd & Hrd & HI' & _).
    exists rd. split; [done|]. by apply Inv_Invariants.
Qed.

(** C9: [fromkeys(ks, v)] returns a container in which every key listed in
    [ks] is present and maps to [v], and whose length is the number of
    distinct keys of [ks]. *)
Theorem fromkeys_all_keys_one_value (keys : list K) v :
  ∃ rd : RD,
    fromkeys keys v = Returns rd ∧
    (∀ k, k ∈ keys → present k rd ∧ __getitem__ k rd = (Returns v, rd)) ∧
    __len__ rd = (Returns (Z.of_nat (length (remove_dups keys))), rd).
Proof.
  destruct (fromkeys_general keys v) as (rd & Hrd & HI & Hdom & Hget).
  exists rd. split; [done|]. split.
  - intros k Hin. specialize (Hget k Hin).
    assert (__getitem__ k rd = (Returns v, rd)) as Hg.
    { rewrite <- (getitem_state rd k) at 2.
      destruct (__getitem__ k rd). simpl in *. by rewrite Hget. }
    split; [|done].
    destruct (decide (present k rd)) as [|Hn%present_None]; [done|].
    rewrite (getitem_absent _ _ Hn) in Hg. discriminate.
  - rewrite len_eq. do 2 f_equal. unfold count.
    rewrite (inv_len _ HI), <- (Inv_size _ HI), <- size_dom, Hdom.
    by rewrite size_list_to_set_remove_dups.
Qed.
End Properties.

(* ===================================================================== *)
(** ** The sample scenario, and the theorems at concrete containers *)
(* ===================================================================== *)

Lemma empty_Invariants : Invariants (@empty_rd string _ _ Z).
Proof. apply Inv_Invariants, Inv_empty. Qed.

Lemma sample_Invariants : Invariants sample.
Proof. apply Inv_Invariants, Inv_after, Inv_empty. Qed.

Lemma sample_state :
  _values sample = [("c", 3); ("b", 2)] ∧ last_index sample = 1 ∧
  _keys sample = <["b" := 1]> {["c" := 0]}.
Proof. vm_compute. done. Qed.

(** The scenario of the specification: length 3 after the three inserts;
    after [remove("a")] length 2, ["b"] and ["c"] keep their values, ["a"]
    is gone, and the two possible draws return ["c"] and ["b"]. *)
Example sample_scenario :
  (__len__ (after (take 3 sample_ops) empty_rd)).1 = Returns 3 ∧
  (__len__ sample).1 = Returns 2 ∧
  (__getitem__ "b" sample).1 = Returns 2 ∧
  (__getitem__ "c" sample).1 = Returns 3 ∧
  (__getitem__ "a" sample).1 = Raises (missing_error "a") ∧
  (random_key 0 sample).1 = Returns "c" ∧
  (random_key 1 sample).1 = Returns "b".
Proof. vm_compute. done. Qed.

(** Two insertion orders give different slot layouts and equal
    containers. *)
Example layout_irrelevant :
  let s1 : @RandomDict string _ _ Z := after [OpSet "a" 1; OpSet "b" 2] empty_rd in
  let s2 : @RandomDict string _ _ Z := after [OpSet "b" 2; OpSet "a" 1] empty_rd in
  _values s1 ≠ _values s2 ∧ (__eq__ s2 s1).1 = Returns true.
Proof. vm_compute. split; [discriminate|done]. Qed.

Lemma sample_view : view sample_heap 3 = Some sample.
Proof. vm_compute. done. Qed.

Lemma sample_present_b : present "b" sample.
Proof. exists 1. vm_compute. done. Qed.

Lemma sample_present_c : present "c" sample.
Proof. exists 0. vm_compute. done. Qed.

Lemma sample_absent_a : ¬ present "a" sample.
Proof. apply present_None. vm_compute. done. Qed.

Lemma random_key_uniform_witness :
  Invariants (@empty_rd string _ _ Z) ∧
  ∃ i, randint 0 (last_index sample) i = true ∧
       random_key i sample = (Returns "b", sample).
Proof.
  split; [exact empty_Invariants|].
  destruct (random_key_uniform sample_ops empty_rd empty_Invariants)
    as (_ & _ & Hne).
  destruct Hne as (_ & _ & Hall); [vm_compute; discriminate|].
  destruct (Hall "b" sample_present_b) as (i & Hi & Hr & _).
  exists i. split; [exact Hi|exact Hr].
Defined.

Lemma invariants_preserved_witness :
  Invariants sample ∧ Invariants (__delitem__ "c" sample).2.
Proof.
  split; [exact sample_Invariants|].
  destruct (invariants_preserved sample sample_Invariants) as (_ & Hdel & _).
  exact (Hdel "c").
Defined.

Lemma delitem_present_or_absent_witness :
  Invariants sample ∧ present "b" sample ∧ ¬ present "a" sample ∧
  (__delitem__ "b" sample).1 = Returns tt ∧
  __delitem__ "a" sample = (Raises (missing_error "a"), sample).
Proof.
  split; [exact sample_Invariants|]. split; [exact sample_present_b|].
  split; [exact sample_absent_a|].
  destruct (delitem_present_or_absent sample "b" sample_Invariants)
    as [Hpres _].
  destruct (delitem_present_or_absent sample "a" sample_Invariants)
    as [_ Habs].
  split; [exact (proj1 (Hpres sample_present_b))|exact (Habs sample_absent_a)].
Defined.

Lemma delitem_frame_witness :
  Invariants sample ∧ present "c" sample ∧ present "b" sample ∧ "b" ≠ "c" ∧
  present "b" (__delitem__ "c" sample).2.
Proof.
  split; [exact sample_Invariants|]. split; [exact sample_present_c|].
  split; [exact sample_present_b|].
  assert ("b" ≠ "c") as Hne by discriminate. split; [exact Hne|].
  exact (proj1 (proj2 (delitem_frame sample "c" "b" sample_Invariants
                         sample_present_c sample_present_b Hne))).
Defined.

Lemma setitem_then_getitem_witness :
  Invariants sample ∧ present "b" sample ∧ ¬ present "a" sample ∧
  (__getitem__ "b" (__setitem__ "b" 7 sample).2).1 = Returns 7 ∧
  (__len__ (__setitem__ "a" 9 sample).2).1 = Returns (count sample + 1).
Proof.
  split; [exact sample_Invariants|]. split; [exact sample_present_b|].
  split; [exact sample_absent_a|].
  destruct (setitem_then_getitem sample "b" 7 sample_Invariants)
    as (_ & Hget & _).
  destruct (setitem_then_getitem sample "a" 9 sample_Invariants)
    as (_ & _ & _ & Hnew & _).
  split.
  - exact (f_equal fst Hget).
  - exact (f_equal fst (Hnew sample_absent_a)).
Defined.

Lemma random_value_item_derived_witness :
  Invariants sample ∧ count sample ≠ 0 ∧ randint 0 (last_index sample) 1 = true ∧
  Invariants (@empty_rd string _ _ Z) ∧ count (@empty_rd string _ _ Z) = 0 ∧
  (∃ k v, random_item 1 sample = (Returns (k, v), sample) ∧
          random_value 1 sample = (Returns v, sample)) ∧
  random_item 0 (@empty_rd string _ _ Z) = (Raises empty_error, empty_rd).
Proof.
  split; [exact sample_Invariants|].
  assert (count sample ≠ 0) as Hc by (vm_compute; discriminate).
  assert (randint 0 (last_index sample) 1 = true) as Hi by (vm_compute; done).
  assert (count (@empty_rd string _ _ Z) = 0) as He by done.
  split; [exact Hc|]. split; [exact Hi|]. split; [exact empty_Invariants|].
  split; [exact He|].
  destruct (random_value_item_derived sample sample_Invariants) as [Hne _].
  destruct (random_value_item_derived empty_rd empty_Invariants) as [_ Hem].
  split.
  - destruct (Hne Hc 1 Hi) as (k & v & _ & _ & Hitem & Hval).
    exists k, v. split; [exact Hitem|exact Hval].
  - destruct (Hem He 0 "a") as (_ & _ & Hitem & _). exact Hitem.
Defined.

Lemma construction_one_source_witness :
  (length [[("a", 1); ("b", 2)]] ≤ 1)%nat ∧
  ("self" ∉ [("a", 3)].*1) ∧ NoDup [("a", 3)].*1 ∧
  ((2 ≤ length [[("a", 1)]; [("a", 2)]])%nat ∨ "self" ∈ ([] : list (string * Z)).*1) ∧
  ((2 ≤ length ([] : list (list (string * Z))))%nat ∨ "self" ∈ [("self", 1)].*1) ∧
  (∃ rd : @RandomDict string _ _ Z,
     RandomDict_call [[("a", 1); ("b", 2)]] [("a", 3)] = Returns rd ∧
     __getitem__ "a" rd = (Returns 3, rd)) ∧
  raised TypeError
    (RandomDict_call (K:=string) (V:=Z) [[("a", 1)]; [("a", 2)]] []) ∧
  raised TypeError (RandomDict_call (K:=string) (V:=Z) [] [("self", 1)]).
Proof.
  assert (length [[("a", 1); ("b", 2)]] ≤ 1)%nat as H1 by (simpl; lia).
  assert ("self" ∉ [("a", 3)].*1) as H2
    by (apply (bool_decide_unpack _); vm_compute; exact I).
  assert (NoDup [("a", 3)].*1) as H3
    by (apply (bool_decide_unpack _); vm_compute; exact I).
  assert ((2 ≤ length [[("a", 1)]; [("a", 2)]])%nat ∨
          "self" ∈ ([] : list (string * Z)).*1) as H4 by (left; simpl; lia).
  assert ((2 ≤ length ([] : list (list (string * Z))))%nat ∨
          "self" ∈ [("self", 1)].*1) as H5
    by (right; apply (bool_decide_unpack _); vm_compute; exact I).
  split; [exact H1|]. split; [exact H2|]. split; [exact H3|].
  split; [exact H4|]. split; [exact H5|]. split; [|split].
  - destruct (proj1 (construction_one_source (K:=string) (V:=Z)
                       [[("a", 1); ("b", 2)]] [("a", 3)]) H1 H2 H3)
      as (rd & Hrd & _ & Hget).
    exists rd. split; [exact Hrd|exact (Hget "a")].
  - exact (proj2 (construction_one_source (K:=string) (V:=Z)
                    [[("a", 1)]; [("a", 2)]] []) H4).
  - exact (proj2 (construction_one_source (K:=string) (V:=Z)
                    [] [("self", 1)]) H5).
Defined.

(** C7 as stated fails: with two positional sources construction raises
    TypeError, where the claim has it return with the later source
    winning. *)
Lemma construction_two_sources_counterexample :
  RandomDict_call (K:=string) (V:=Z) [[("a", 1)]; [("a", 2)]] [] =
    Raises (Exc TypeError
              (ArgMsg "MutableMapping.update() takes from 1 to 2 positional arguments but 3 were given")) ∧
  raised TypeError
    (RandomDict_call (K:=string) (V:=Z) [[("a", 1)]; [("a", 2)]] []) ∧
  ¬ construction_as_specified (K:=string) (V:=Z) [[("a", 1)]; [("a", 2)]] [].
Proof.
  split; [vm_compute; reflexivity|]. split; [vm_compute; reflexivity|].
  intros (rd & Hrd & _). vm_compute in Hrd. discriminate.
Qed.

Lemma copy_equal_and_independent_witness :
  view sample_heap 3 = Some sample ∧ Invariants sample ∧
  ∃ c2 h1, copy 3%positive sample_heap = Some (Returns c2, h1) ∧ c2 ≠ 3%positive ∧
           ∃ h2, call c2 (__setitem__ "b" 7) h1 = Some (Returns tt, h2) ∧
                 view h2 3%positive = Some sample.
Proof.
  split; [exact sample_view|]. split; [exact sample_Invariants|].
  destruct (copy_equal_and_independent sample_heap 3 sample sample_view
              sample_Invariants)
    as (c2 & h1 & Hcopy & Hne & _ & _ & _ & Hset & _).
  exists c2, h1. split; [exact Hcopy|]. split; [exact Hne|].
  destruct (Hset "b" 7) as (h2 & Hcall & Hv1 & _).
  exists h2. split; [exact Hcall|exact Hv1].
Defined.

Lemma fromkeys_all_keys_one_value_witness :
  ∃ rd : @RandomDict string _ _ Z,
    fromkeys ["a"; "b"; "c"] 0 = Returns rd ∧
    __len__ rd = (Returns 3, rd) ∧
    "a" ∈ ["a"; "b"; "c"] ∧ __getitem__ "a" rd = (Returns 0, rd) ∧
    "b" ∈ ["a"; "b"; "c"] ∧ __getitem__ "b" rd = (Returns 0, rd) ∧
    "c" ∈ ["a"; "b"; "c"] ∧ __getitem__ "c" rd = (Returns 0, rd).
Proof.
  destruct (fromkeys_all_keys_one_value (K:=string) (V:=Z) ["a"; "b"; "c"] 0)
    as (rd & Hrd & Hkeys & Hlen).
  assert ("a" ∈ ["a"; "b"; "c"]) as Ha by (apply list_elem_of_In; simpl; auto).
  assert ("b" ∈ ["a"; "b"; "c"]) as Hb by (apply list_elem_of_In; simpl; auto).
  assert ("c" ∈ ["a"; "b"; "c"]) as Hc by (apply list_elem_of_In; simpl; auto).
  exists rd. split; [exact Hrd|]. split; [exact Hlen|].
  split; [exact Ha|]. split; [exact (proj2 (Hkeys "a" Ha))|].
  split; [exact Hb|]. split; [exact (proj2 (Hkeys "b" Hb))|].
  split; [exact Hc|exact (proj2 (Hkeys "c" Hc))].
Defined.

Lemma empty_and_missing_same_class_witness :
  count (@empty_rd string _ _ Z) = 0 ∧
  ¬ present "a" sample ∧
  ∃ e1 e2 e3,
    random_key 0 (@empty_rd string _ _ Z) = (Raises e1, empty_rd) ∧
    __getitem__ "a" sample = (Raises e2, sample) ∧
    __delitem__ "a" sample = (Raises e3, sample) ∧
    exc_type e1 = exc_type e2 ∧ exc_type e1 = exc_type e3.
Proof.
  assert (count (@empty_rd string _ _ Z) = 0) as Hc by reflexivity.
  split; [exact Hc|]. split; [exact sample_absent_a|].
  destruct (empty_and_missing_same_class empty_rd sample "a" 0 Hc
              sample_absent_a)
    as (e1 & e2 & e3 & Hr & Hg & Hd & H1 & H2 & H3 & _).
  exists e1, e2, e3. split; [exact Hr|]. split; [exact Hg|].
  split; [exact Hd|]. split; congruence.
Defined.

(** C6 as stated fails: [pop] with a default is a pop-style call, and on
    the empty container it returns the default where the claim has every
    pop-style call fail. *)
Lemma pop_with_default_counterexample :
  Invariants (@empty_rd string _ _ Z) ∧ count (@empty_rd string _ _ Z) = 0 ∧
  pop "a" (Some 0) (@empty_rd string _ _ Z) = (Returns 0, empty_rd) ∧
  ¬ (∀ (k : string) (dflt : option Z),
       raised EmptyContainer (pop k dflt (@empty_rd string _ _ Z)).1).
Proof.
  split; [exact empty_Invariants|]. split; [reflexivity|].
  split; [reflexivity|]. intros Hall. exact (Hall "a" (Some 0)).
Qed.

(* ===================================================================== *)
(** ** Further properties of the container *)
(* ===================================================================== *)

Section MoreProperties.
Context {K : Type} {EqK : EqDecision K} {CntK : Countable K}
        {V : Type} {EqV : EqDecision V} {StrK : StrKey K}.

Local Abbreviation RD := (@RandomDict K _ _ V).

Implicit Types (s : RD) (k key : K) (v val : V) (p i : Z).

(** *** Insertion *)

(** X1: frame property of insertion. On a container satisfying the
    invariants, [set(k, v)] changes the outcome of [get(k')] for no other
    key [k']: the same value, or the same KeyError. *)
Theorem setitem_frame s k v k' :
  Invariants s → k' ≠ k →
  let s' := (__setitem__ k v s).2 in
  __getitem__ k' s' = ((__getitem__ k' s).1, s').
Proof.
  intros HI%Invariants_Inv Hne. simpl.
  rewrite <- (setitem_getitem_other s k v k' HI Hne).
  rewrite <- (getitem_state (__setitem__ k v s).2 k') at 3.
  by destruct (__getitem__ k' (__setitem__ k v s).2).
Qed.

(** X2: inserting a key that is not in the Index and deleting it again
    gives back the instance exactly as it was, all three attributes, in
    whatever state the instance is. *)
Theorem setitem_delitem_roundtrip s k v :
  ¬ present k s →
  __delitem__ k (__setitem__ k v s).2 = (Returns tt, s).
Proof.
  intros Hk%present_None. rewrite (setitem_absent _ _ _ Hk). simpl.
  unfold __delitem__, mbind, M_bind, keys_getitem. simpl.
  rewrite lookup_insert_eq. unfold values_pop at 1. simpl.
  rewrite list_pop_snoc. simpl. rewrite Z.eqb_refl. simpl.
  unfold keys_delitem. simpl. rewrite lookup_insert_eq.
  destruct s as [d l li]. simpl in *. f_equal. f_equal; [|lia].
  by rewrite delete_insert_eq, delete_id.
Qed.

(** X3: an overwritten value leaves no trace: on a container satisfying
    the invariants, [set(k, v1)] followed by [set(k, v2)] gives the same
    instance, slot for slot, as [set(k, v2)] alone. *)
Theorem setitem_overwrite s k v1 v2 :
  Invariants s →
  (__setitem__ k v2 (__setitem__ k v1 s).2).2 = (__setitem__ k v2 s).2.
Proof.
  intros HI%Invariants_Inv. pose proof (Inv_setitem _ k v1 HI) as HI1.
  destruct (_keys s !! k) as [p|] eqn:Hk.
  - pose proof (setitem_present_inv s k v1 p HI Hk) as E1.
    destruct (__setitem__ k v1 s) as [r1 s1]. injection E1 as -> ->.
    simpl in *.
    rewrite (setitem_present_inv _ k v2 p HI1 Hk).
    rewrite (setitem_present_inv s k v2 p HI Hk). simpl.
    by rewrite list_insert_insert_eq.
  - pose proof (setitem_absent s k v1 Hk) as E1.
    destruct (__setitem__ k v1 s) as [r1 s1]. injection E1 as -> ->.
    simpl in *.
    rewrite (setitem_present_inv _ k v2 (last_index s + 1) HI1)
      by apply lookup_insert_eq.
    rewrite (setitem_absent s k v2 Hk). simpl. f_equal.
    replace (Z.to_nat (last_index s + 1)) with (length (_values s) + 0)%nat
      by (pose proof (inv_len _ HI); lia).
    by rewrite insert_app_r.
Qed.

(** *** Deletion *)

(** X4: deletion relocates at most one entry. After [remove(k)] of the key
    at slot [p], Slots is one shorter; every surviving key keeps its slot
    number, except the key of the former last slot, which now has slot
    [p]; and every slot other than [p] holds what it held. *)
Theorem delitem_relocates_last s k p :
  Invariants s → _keys s !! k = Some p →
  let s' := (__delitem__ k s).2 in
  S (length (_values s')) = length (_values s) ∧
  (∀ k' q, k' ≠ k → _keys s !! k' = Some q →
     _keys s' !! k' = Some (if decide (q = last_index s) then p else q)) ∧
  (∀ q : nat, q ≠ Z.to_nat p → (q < length (_values s'))%nat →
     _values s' !! q = _values s !! q) ∧
  (p ≠ last_index s →
     _values s' !! Z.to_nat p = _values s !! Z.to_nat (last_index s)).
Proof.
  intros HI%Invariants_Inv Hk. simpl.
  destruct (delitem_present_inv _ _ _ HI Hk) as (l & mk & mv & Hl & ->).
  destruct (Inv_last_slot _ _ _ _ HI Hl) as [Hli Hmk].
  pose proof (Inv_index_range _ _ _ HI Hk) as Hp. unfold count in Hp.
  destruct (decide (p = last_index s)) as [->|Hnl]; simpl.
  - split; [rewrite Hl, length_app; simpl; lia|]. split; [|split; [|done]].
    + intros k' q Hne Hk'. rewrite lookup_delete_ne by done.
      destruct (decide (q = last_index s)) as [->|]; [|done].
      destruct Hne. exact (Inv_index_inj _ _ _ _ HI Hk' Hk).
    + intros q _ Hq. by rewrite Hl, lookup_app_l.
  - split; [rewrite length_insert, Hl, length_app; simpl; lia|].
    split; [|split].
    + intros k' q Hne Hk'. rewrite lookup_delete_ne by done.
      destruct (decide (q = last_index s)) as [->|Hq].
      * assert (mk = k') as -> by exact (Inv_index_inj _ _ _ _ HI Hmk Hk').
        apply lookup_insert_eq.
      * rewrite lookup_insert_ne; [done|]. intros ->. congruence.
    + intros q Hq Hlt. rewrite length_insert in Hlt.
      rewrite list_lookup_insert_ne by done. by rewrite Hl, lookup_app_l.
    + intros _. rewrite list_lookup_insert_eq by lia.
      by rewrite Hl, Hli, Nat2Z.id, lookup_app_r, Nat.sub_diag.
Qed.

(** *** Reading *)

Lemma items_of_state s (keys : list K) : (items_of keys s).2 = s.
Proof.
  induction keys as [|k0 keys IH]; [done|]. simpl. unfold mbind, M_bind.
  pose proof (getitem_state s k0) as Hg.
  destruct (__getitem__ k0 s) as [[v|e] s1]; simpl in Hg; subst s1; [|done].
  destruct (items_of keys s) as [[L|e] s2]; simpl in IH; by subst s2.
Qed.

(** X5: the reading operations never modify the instance, in any state,
    whether they return or raise: [get], length, [random_key],
    [random_value], [random_item], [in], iteration, [items] and [==]. No
    sampling state is kept between draws. *)
Theorem readers_never_mutate s (other : RD) k i dflt :
  (__getitem__ k s).2 = s ∧ (__len__ s).2 = s ∧
  (random_key i s).2 = s ∧ (random_value i s).2 = s ∧
  (random_item i s).2 = s ∧ (__contains__ k s).2 = s ∧
  (get k dflt s).2 = s ∧ (__iter__ s).2 = s ∧ (items s).2 = s ∧
  (__eq__ other s).2 = s.
Proof.
  pose proof (getitem_state s) as Hg.
  pose proof (random_key_state s i) as Hr.
  assert ((items s).2 = s) as Hitems by apply items_of_state.
  split; [done|]. split; [done|]. split; [done|].
  split; [|split; [|split; [|split; [|split; [done|split; [done|]]]]]].
  - unfold random_value, mbind, M_bind.
    destruct (random_key i s) as [[k'|e] s1]; simpl in Hr; subst s1; [|done].
    apply Hg.
  - unfold random_item, mbind, M_bind.
    destruct (random_key i s) as [[k'|e] s1]; simpl in Hr; subst s1; [|done].
    specialize (Hg k').
    destruct (__getitem__ k' s) as [[v|e] s1]; simpl in Hg; by subst s1.
  - unfold __contains__, try_except_else. specialize (Hg k).
    destruct (__getitem__ k s) as [[v|e] s1]; simpl in Hg; subst s1; [done|].
    by destruct (decide (exc_type e = KeyError)).
  - unfold get, try_except_else. specialize (Hg k).
    destruct (__getitem__ k s) as [[v|e] s1]; simpl in Hg; subst s1; [done|].
    by destruct (decide (exc_type e = KeyError)).
  - unfold __eq__, mbind, M_bind, on_other.
    destruct (items s) as [[L|e] s1]; simpl in Hitems; subst s1; [|done].
    by destruct (items other).1.
Qed.

(** *** Errors *)

Lemma random_key_draw s i :
  Inv s → randint 0 (last_index s) i = true →
  ∃ k v, _values s !! Z.to_nat i = Some (k, v) ∧
         random_key i s = (Returns k, s) ∧ _keys s !! k = Some i.
Proof.
  intros HI Hi%randint_count. pose proof (inv_len _ HI) as Hlen.
  unfold count in Hi.
  destruct (lookup_lt_is_Some_2 (_values s) (Z.to_nat i)) as [[k v] Hv];
    [lia|].
  exists k, v. split; [done|]. split.
  - apply (random_key_slot _ _ _ v); [unfold count; lia|lia|done].
  - rewrite (inv_slots _ HI _ _ _ Hv). f_equal. lia.
Qed.

Lemma random_key_draw_getitem s i :
  Inv s → randint 0 (last_index s) i = true →
  ∃ k v, random_key i s = (Returns k, s) ∧ __getitem__ k s = (Returns v, s).
Proof.
  intros HI Hi. destruct (random_key_draw s i HI Hi) as (k & v & _ & Hr & Hk).
  destruct (getitem_present_inv _ _ _ HI Hk) as (v' & _ & Hg). eauto.
Qed.

(** X6: on a container satisfying the invariants the only error that
    escapes is the KeyError the code raises itself, never an IndexError
    from Slots, and a call that raises leaves the instance as it was:
    [set] always returns; [get] and [remove] raise only [KeyError(key)] and
    only for an absent key; [random_key], [random_value] and [random_item]
    raise only on the empty container. *)
Theorem only_KeyError_escapes s :
  Invariants s →
  (∀ k v, (__setitem__ k v s).1 = Returns tt) ∧
  (∀ k e s', __getitem__ k s = (Raises e, s') →
     e = missing_error k ∧ ¬ present k s ∧ s' = s) ∧
  (∀ k e s', __delitem__ k s = (Raises e, s') →
     e = missing_error k ∧ ¬ present k s ∧ s' = s) ∧
  (∀ i e s', (count s ≠ 0 → randint 0 (last_index s) i = true) →
     random_key i s = (Raises e, s') ∨ random_value i s = (Raises e, s') ∨
     random_item i s = (Raises e, s') →
     e = empty_error ∧ count s = 0 ∧ s' = s).
Proof.
  intros HI%Invariants_Inv.
  split; [intros k v; by rewrite (setitem_returns _ _ _ HI)|].
  split; [|split].
  - intros k e s' Hg. destruct (_keys s !! k) as [p|] eqn:Hk.
    + destruct (getitem_present_inv _ _ _ HI Hk) as (v & _ & Hg').
      congruence.
    + rewrite (getitem_absent _ _ Hk) in Hg. injection Hg as <- <-.
      split; [done|]. split; [by apply present_None|done].
  - intros k e s' Hd. destruct (_keys s !! k) as [p|] eqn:Hk.
    + destruct (delitem_present_inv _ _ _ HI Hk) as (l & mk & mv & _ & Hd').
      congruence.
    + rewrite (delitem_absent _ _ Hk) in Hd. injection Hd as <- <-.
      split; [done|]. split; [by apply present_None|done].
  - intros i e s' Hdraw Hraise.
    destruct (decide (count s = 0)) as [Hc|Hc].
    + pose proof (random_key_empty s i Hc) as Hr.
      unfold random_value, random_item, mbind, M_bind in Hraise.
      rewrite Hr in Hraise.
      destruct Hraise as [[= <- <-]|[[= <- <-]|[= <- <-]]]; done.
    + destruct (random_key_draw_getitem s i HI (Hdraw Hc))
        as (k & v & Hr & Hg).
      unfold random_value, random_item, mbind, M_bind in Hraise.
      rewrite Hr, ?Hg in Hraise.
      destruct Hraise as [?|[?|?]]; discriminate.
Qed.

(** *** Random selection after a deletion *)

(** X7: a removed key is never drawn again. After [remove(k)] of a
    present key, every draw returns a key other than [k], one that was
    present before the removal. *)
Theorem removed_key_never_drawn s k i :
  Invariants s → present k s →
  let s' := (__delitem__ k s).2 in
  randint 0 (last_index s') i = true →
  ∃ k', random_key i s' = (Returns k', s') ∧ k' ≠ k ∧ present k' s.
Proof.
  intros HI%Invariants_Inv Hpr. simpl. intros Hi.
  pose proof (Inv_delitem _ k HI) as HI'.
  destruct (random_key_draw _ i HI' Hi) as (k' & v & _ & Hr & Hk').
  exists k'. split; [done|].
  assert (k' ≠ k) as Hne.
  { intros ->. rewrite (delitem_absent_after _ _ HI Hpr) in Hk'. done. }
  split; [done|].
  destruct (getitem_present_inv _ _ _ HI' Hk') as (v' & _ & Hg).
  pose proof (delitem_getitem_other _ _ _ HI Hpr Hne) as Hsame.
  rewrite Hg in Hsame. simpl in Hsame.
  destruct (decide (present k' s)) as [|Hn%present_None]; [done|].
  rewrite (getitem_absent _ _ Hn) in Hsame. discriminate.
Qed.

(** *** Iteration *)

Lemma items_of_fst s (keys : list K) L s' :
  items_of keys s = (Returns L, s') →
  L.*1 = keys ∧ ∀ k v, (k, v) ∈ L → __getitem__ k s = (Returns v, s).
Proof.
  revert L. induction keys as [|k0 keys IH]; intros L.
  - simpl. intros [= <- <-]. split; [done|].
    intros k v Hin. by apply not_elem_of_nil in Hin.
  - simpl. unfold mbind, M_bind.
    pose proof (getitem_state s k0) as Hst.
    destruct (__getitem__ k0 s) as [[v0|e] s1] eqn:Hg; simpl in Hst; subst s1;
      [|done].
    pose proof (items_of_state s keys) as Hst'.
    destruct (items_of keys s) as [[L'|e] s2] eqn:HL; simpl in Hst'; subst s2;
      [|done].
    intros [= <- <-]. destruct (IH L' eq_refl) as [Hfst Hmem].
    split; [by rewrite fmap_cons, Hfst|].
    intros k v [[= -> ->]|Hin]%elem_of_cons; [done|by apply Hmem].
Qed.

(** X8: on a container satisfying the invariants, iteration yields every
    present key exactly once and nothing else, as many keys as the length
    reports; [items] yields, for these keys in the same order, the pairs
    of the key and the value [get] returns for it. *)
Theorem iteration_enumerates_keys s :
  Invariants s →
  ∃ ks L,
    __iter__ s = (Returns ks, s) ∧ NoDup ks ∧
    (∀ k, k ∈ ks ↔ present k s) ∧
    __len__ s = (Returns (Z.of_nat (length ks)), s) ∧
    items s = (Returns L, s) ∧ L.*1 = ks ∧
    ∀ k v, (k, v) ∈ L → __getitem__ k s = (Returns v, s).
Proof.
  intros HI%Invariants_Inv.
  destruct (items_Inv s HI) as (L & HL & _).
  exists (elements (dom (_keys s))), L.
  split; [done|]. split; [apply NoDup_elements|].
  split; [intros k; by rewrite elem_of_elements, elem_of_dom|].
  split.
  - rewrite len_eq. do 2 f_equal. unfold count.
    rewrite (inv_len _ HI), <- (Inv_size _ HI), <- size_dom. done.
  - split; [done|]. apply (items_of_fst s _ L s). exact HL.
Qed.

(** *** The container against a plain dict *)

Lemma as_dict_Inv s :
  Inv s →
  ∃ d, as_dict s = (Returns d, s) ∧
       ∀ k, d !! k = returned (__getitem__ k s).1.
Proof.
  intros HI. destruct (items_Inv s HI) as (L & HL & Hd).
  exists (dict_of_pairs L). split; [|done].
  unfold as_dict, mbind, M_bind. by rewrite HL.
Qed.

Lemma run_op_lookup s o (d : gmap K V) :
  Inv s → (∀ k, d !! k = returned (__getitem__ k s).1) →
  ∀ k, replay [o] d !! k = returned (__getitem__ k (run_op o s).2).1.
Proof.
  intros HI Hd k. destruct o as [k0 v|k0]; simpl.
  - destruct (decide (k0 = k)) as [->|Hne].
    + by rewrite lookup_insert_eq, (setitem_getitem_same _ _ _ HI).
    + rewrite lookup_insert_ne by done.
      by rewrite (setitem_getitem_other _ _ _ _ HI (not_eq_sym Hne)).
  - destruct (decide (present k0 s)) as [Hpr|Hn%present_None].
    + destruct (decide (k0 = k)) as [->|Hne].
      * rewrite lookup_delete_eq.
        by rewrite (getitem_absent _ _ (delitem_absent_after _ _ HI Hpr)).
      * rewrite lookup_delete_ne by done.
        by rewrite (delitem_getitem_other _ _ _ HI Hpr (not_eq_sym Hne)).
    + rewrite (delitem_absent _ _ Hn). simpl.
      destruct (decide (k0 = k)) as [->|Hne].
      * by rewrite lookup_delete_eq, (getitem_absent _ _ Hn).
      * by rewrite lookup_delete_ne.
Qed.

Lemma after_replay ops s (d : gmap K V) :
  Inv s → (∀ k, d !! k = returned (__getitem__ k s).1) →
  ∀ k, replay ops d !! k = returned (__getitem__ k (after ops s)).1.
Proof.
  revert s d. induction ops as [|o ops IH]; intros s d HI Hd; [done|].
  simpl. apply IH.
  - destruct o; [by apply Inv_setitem|by apply Inv_delitem].
  - apply (run_op_lookup s o d HI Hd).
Qed.

Lemma lookup_count s (d : gmap K V) :
  Inv s → (∀ k, d !! k = returned (__getitem__ k s).1) →
  count s = Z.of_nat (size d).
Proof.
  intros HI Hd. unfold count.
  rewrite (inv_len _ HI), <- (Inv_size _ HI), <- !size_dom. do 2 f_equal.
  apply set_eq. intros k. rewrite !elem_of_dom, Hd.
  rewrite (getitem_Inv _ _ HI). simpl. split.
  - intros [p Hk]. destruct (inv_index _ HI _ _ Hk) as [_ [v Hv]].
    rewrite Hk, Hv. by eexists.
  - destruct (_keys s !! k); [eauto|]. by intros [? ?].
Qed.

Lemma lookup_getitem s (d : gmap K V) k :
  Inv s → d !! k = returned (__getitem__ k s).1 →
  __getitem__ k s = (lookup_result (d !! k) k, s).
Proof.
  intros HI ->. destruct (_keys s !! k) as [p|] eqn:Hk.
  - by destruct (getitem_present_inv _ _ _ HI Hk) as (v & _ & ->).
  - by rewrite (getitem_absent _ _ Hk).
Qed.

(** X9: the container behaves as a plain dict. Starting from a container
    satisfying the invariants, whose content as a dict is [d0], any history
    of [set] and [remove] calls (failed removals included) leaves a
    container whose content is [d0] after the same history; [get] returns
    what the dict holds, or [KeyError(key)], and the length is the dict's
    size. *)
Theorem history_refines_dict ops s0 :
  Invariants s0 →
  ∃ d0, as_dict s0 = (Returns d0, s0) ∧
        let s := after ops s0 in
        as_dict s = (Returns (replay ops d0), s) ∧
        (∀ k, __getitem__ k s = (lookup_result (replay ops d0 !! k) k, s)) ∧
        __len__ s = (Returns (Z.of_nat (size (replay ops d0))), s).
Proof.
  intros HI0%Invariants_Inv.
  destruct (as_dict_Inv s0 HI0) as (d0 & Hd0 & Hl0).
  exists d0. split; [done|]. simpl.
  pose proof (Inv_after ops _ HI0) as HI.
  pose proof (after_replay ops s0 d0 HI0 Hl0) as Hl.
  destruct (as_dict_Inv _ HI) as (d & Hd & Hl').
  assert (d = replay ops d0) as ->.
  { apply map_eq. intros k. by rewrite Hl, Hl'. }
  split; [done|]. split.
  - intros k. by apply lookup_getitem.
  - rewrite len_eq. do 2 f_equal. by apply lookup_count.
Qed.

(** *** Construction and bulk update *)

(** X10: [fromkeys(keys, value)] has the outcome of constructing from the
    pairs [(key, value)], one per key in the same order: the same
    container, slot for slot. *)
Theorem fromkeys_as_construction (keys : list K) v :
  fromkeys keys v =
    RandomDict_call (V:=V) [(λ key, (key, v)) <$> keys] [].
Proof.
  unfold fromkeys.
  rewrite call_no_arguments.
  rewrite call_unbound by apply not_elem_of_nil.
  rewrite init_state. unfold update, mbind, M_bind.
  rewrite (for_each_fmap (λ key, (key, v)) keys
             (λ kv, __setitem__ kv.1 kv.2) empty_rd).
  change ((λ kv : K * V, __setitem__ kv.1 kv.2) ∘ (λ key, (key, v)))
    with (λ key, __setitem__ key v).
  by destruct (for_each keys (λ key, __setitem__ key v) empty_rd)
    as [[[]|e] rd].
Qed.

(** X11: on a container satisfying the invariants, with [args] at most one
    source, [update] returns, keeps the invariants and merges: a key bound
    by the source or the keyword bindings gets the value of its last pair
    there (keyword bindings after the source), every other key keeps the
    outcome [get] had for it before. *)
Theorem update_merges s (args : list (list (K * V))) kwds :
  Invariants s → (length args ≤ 1)%nat →
  let s' := (update args kwds s).2 in
  (update args kwds s).1 = Returns tt ∧
  Invariants s' ∧
  ∀ k, __getitem__ k s' =
         (match last_binding (concat args ++ kwds) k with
          | Some v => Returns v
          | None => (__getitem__ k s).1
          end, s').
Proof.
  intros HI%Invariants_Inv Hlen. simpl.
  rewrite (update_pairs _ _ _ Hlen).
  destruct (for_each_setitem (concat args ++ kwds) s HI)
    as (s' & -> & HI' & _ & Hget).
  simpl. split; [done|]. split; [by apply Inv_Invariants|].
  intros k. rewrite <- Hget.
  rewrite <- (getitem_state s' k) at 3. by destruct (__getitem__ k s').
Qed.

(** X12: constructing a container from the [items] of a container
    satisfying the invariants always returns, and the new container is
    equal ([==]) to the old one and has its length. *)
Theorem construction_from_items s :
  Invariants s →
  ∃ L rd,
    items s = (Returns L, s) ∧
    RandomDict_call [L] [] = Returns rd ∧
    Invariants rd ∧
    __eq__ s rd = (Returns true, rd) ∧
    __len__ rd = (Returns (count s), rd).
Proof.
  intros HI%Invariants_Inv.
  destruct (items_Inv s HI) as (L & HL & Hd).
  destruct (for_each_setitem (concat [L] ++ []) empty_rd Inv_empty)
    as (rd & Hrun & HI' & _ & Hget).
  exists L, rd. split; [done|]. split.
  { rewrite call_unbound by apply not_elem_of_nil.
    rewrite init_state, update_pairs by (simpl; lia).
    change (kw_items []) with (@nil (K * V)). by rewrite Hrun. }
  split; [by apply Inv_Invariants|].
  assert (∀ k, dict_of_pairs L !! k = returned (__getitem__ k rd).1) as Hrd.
  { intros k. rewrite Hget, dict_of_pairs_lookup. simpl.
    rewrite !app_nil_r. by destruct (last_binding L k). }
  split.
  - destruct (eq_Inv rd s HI' HI) as (b & -> & Hb). do 2 f_equal.
    apply Hb. intros k. by rewrite <- Hrd, Hd.
  - rewrite len_eq. do 2 f_equal.
    by rewrite (lookup_count rd _ HI' Hrd), (lookup_count s _ HI Hd).
Qed.

(** *** The inherited removal and lookup methods *)

Lemma delitem_count s k :
  Inv s → present k s → count (__delitem__ k s).2 = count s - 1.
Proof.
  intros HI [p Hk].
  destruct (delitem_present_inv _ _ _ HI Hk) as (l & mk & mv & _ & ->).
  unfold count. destruct (decide (p = last_index s)); simpl; lia.
Qed.

Lemma delitem_returns s k :
  Inv s → present k s →
  __delitem__ k s = (Returns tt, (__delitem__ k s).2).
Proof.
  intros HI [p Hk].
  by destruct (delitem_present_inv _ _ _ HI Hk) as (l & mk & mv & _ & ->).
Qed.

(** X13: [pop] on a container satisfying the invariants. For a present
    key it returns the value [get] returns and leaves the container as
    [remove] does: the key absent, the length smaller by 1. For an absent
    key it returns the default when one is given and raises
    [KeyError(key)] otherwise, the container untouched either way. *)
Theorem pop_returns_and_removes s k dflt :
  Invariants s →
  (present k s →
     ∃ v, __getitem__ k s = (Returns v, s) ∧
          pop k dflt s = (Returns v, (__delitem__ k s).2) ∧
          ¬ present k (pop k dflt s).2 ∧
          __len__ (pop k dflt s).2 = (Returns (count s - 1), (pop k dflt s).2)) ∧
  (¬ present k s →
     pop k dflt s =
       (match dflt with
        | Some d => Returns d
        | None => Raises (missing_error k)
        end, s)).
Proof.
  intros HI%Invariants_Inv. split.
  - intros Hpr. pose proof Hpr as [p Hk].
    destruct (getitem_present_inv _ _ _ HI Hk) as (v & _ & Hg).
    assert (pop k dflt s = (Returns v, (__delitem__ k s).2)) as Hpop.
    { unfold pop, try_except_else, mbind, M_bind. rewrite Hg.
      by rewrite (delitem_returns _ _ HI Hpr). }
    exists v. split; [done|]. split; [done|]. rewrite Hpop. simpl. split.
    + apply present_None. by apply delitem_absent_after.
    + rewrite len_eq. do 2 f_equal. by apply delitem_count.
  - intros Hk%present_None. unfold pop, try_except_else.
    rewrite (getitem_absent _ _ Hk). simpl. by destruct dflt.
Qed.

Lemma Inv_count_zero s : Inv s → count s = 0 → s = empty_rd.
Proof.
  intros HI Hc. pose proof (inv_len _ HI) as Hlen. unfold count in Hc.
  destruct s as [d l li]. simpl in *. unfold empty_rd. f_equal.
  - apply map_empty. intros k.
    apply (Inv_empty_keys (mkRandomDict d l li) k HI). unfold count. simpl. lia.
  - apply nil_length_inv. lia.
  - lia.
Qed.

Lemma popitem_empty s :
  Inv s → count s = 0 → popitem s = (Raises (Exc KeyError ArgNone), s).
Proof.
  intros HI Hc. by rewrite (Inv_count_zero s HI Hc).
Qed.

Lemma popitem_first s :
  Inv s → count s ≠ 0 →
  ∃ k v, present k s ∧ __getitem__ k s = (Returns v, s) ∧
         popitem s = (Returns (k, v), (__delitem__ k s).2).
Proof.
  intros HI Hc. pose proof (inv_len _ HI) as Hlen. unfold count in Hc.
  destruct (elements (dom (_keys s))) as [|k ks] eqn:E.
  { destruct (lookup_lt_is_Some_2 (_values s) 0) as [[k0 v0] Hv]; [lia|].
    pose proof (inv_slots _ HI _ _ _ Hv) as Hk0.
    assert (k0 ∈ elements (dom (_keys s))) as Hin
      by (apply elem_of_elements, elem_of_dom; eauto).
    rewrite E in Hin. by apply not_elem_of_nil in Hin. }
  assert (present k s) as Hpr.
  { apply elem_of_dom, elem_of_elements. rewrite E. apply list_elem_of_here. }
  pose proof Hpr as [p Hk].
  destruct (getitem_present_inv _ _ _ HI Hk) as (v & _ & Hg).
  exists k, v. split; [done|]. split; [done|].
  unfold popitem, try_except_else, mbind, M_bind, __iter__. rewrite E. simpl.
  by rewrite Hg, (delitem_returns _ _ HI Hpr).
Qed.

(** X14: [popitem] on a non-empty container satisfying the invariants
    returns a pair [(k, v)] of a present key and the value [get] returns
    for it, and leaves the container as [remove(k)] does: [k] absent, the
    length smaller by 1, the invariants kept. *)
Theorem popitem_removes_a_present_key s :
  Invariants s → count s ≠ 0 →
  ∃ k v,
    present k s ∧ __getitem__ k s = (Returns v, s) ∧
    popitem s = (Returns (k, v), (__delitem__ k s).2) ∧
    ¬ present k (popitem s).2 ∧
    Invariants (popitem s).2 ∧
    __len__ (popitem s).2 = (Returns (count s - 1), (popitem s).2).
Proof.
  intros HI%Invariants_Inv Hc.
  destruct (popitem_first s HI Hc) as (k & v & Hpr & Hg & Hpop).
  exists k, v. split; [done|]. split; [done|]. split; [done|].
  rewrite Hpop. simpl. split; [|split].
  - apply present_None. by apply delitem_absent_after.
  - by apply Inv_Invariants, Inv_delitem.
  - rewrite len_eq. do 2 f_equal. by apply delitem_count.
Qed.

(** X15: [clear] on a container satisfying the invariants terminates after
    one [popitem] per entry plus the failing one, returns, and leaves
    exactly the container a construction without arguments gives: empty
    Index, empty Slots, [last_index] -1. *)
Theorem clear_gives_empty s fuel :
  Invariants s → (Z.to_nat (count s) < fuel)%nat →
  clear fuel s = Some (Returns tt, empty_rd).
Proof.
  intros HI%Invariants_Inv. revert s HI.
  induction fuel as [|fuel IH]; intros s HI Hfuel; [lia|].
  simpl. destruct (decide (count s = 0)) as [Hc|Hc].
  - rewrite (popitem_empty s HI Hc). simpl.
    by rewrite (Inv_count_zero s HI Hc).
  - destruct (popitem_first s HI Hc) as (k & v & Hpr & _ & ->).
    apply IH; [by apply Inv_delitem|].
    rewrite (delitem_count _ _ HI Hpr).
    pose proof (inv_len _ HI). unfold count in *. lia.
Qed.

(** X16: [setdefault] on a container satisfying the invariants. For a
    present key it returns the value the container holds and changes
    nothing; for an absent key it inserts the default as [set] does and
    returns it, after which [get] returns the default. *)
Theorem setdefault_keeps_or_inserts s k d :
  Invariants s →
  (present k s →
     ∃ v, __getitem__ k s = (Returns v, s) ∧ setdefault k d s = (Returns v, s)) ∧
  (¬ present k s →
     setdefault k d s = (Returns d, (__setitem__ k d s).2) ∧
     __getitem__ k (setdefault k d s).2 = (Returns d, (setdefault k d s).2)).
Proof.
  intros HI%Invariants_Inv. split.
  - intros [p Hk]. destruct (getitem_present_inv _ _ _ HI Hk) as (v & _ & Hg).
    exists v. split; [done|]. unfold setdefault, try_except_else.
    by rewrite Hg.
  - intros Hk%present_None.
    assert (setdefault k d s = (Returns d, (__setitem__ k d s).2)) as Hsd.
    { unfold setdefault, try_except_else, mbind, M_bind.
      rewrite (getitem_absent _ _ Hk). simpl.
      by rewrite (setitem_returns _ _ _ HI). }
    split; [done|]. rewrite Hsd. simpl. by apply setitem_getitem_same.
Qed.

(** X17: [get] with a default and [in] never raise on a container
    satisfying the invariants: [get] returns the held value for a present
    key and the default for an absent one, [in] tells whether the key is
    present, and both agree with [__getitem__] returning or raising. *)
Theorem get_and_contains s k d :
  Invariants s →
  __contains__ k s = (Returns (bool_decide (present k s)), s) ∧
  (present k s →
     ∃ v, __getitem__ k s = (Returns v, s) ∧ get k d s = (Returns v, s)) ∧
  (¬ present k s →
     __getitem__ k s = (Raises (missing_error k), s) ∧
     get k d s = (Returns d, s)).
Proof.
  intros HI%Invariants_Inv. split; [by apply contains_Inv|]. split.
  - intros [p Hk]. destruct (getitem_present_inv _ _ _ HI Hk) as (v & _ & Hg).
    exists v. split; [done|]. unfold get, try_except_else. by rewrite Hg.
  - intros Hk%present_None. split; [by apply getitem_absent|].
    unfold get, try_except_else. by rewrite (getitem_absent _ _ Hk).
Qed.
End MoreProperties.

(** *** The further properties at the sample container *)

Lemma sample_key_c : _keys sample !! "c" = Some 0.
Proof. vm_compute. done. Qed.

Lemma setitem_frame_witness :
  Invariants sample ∧ "c" ≠ "b" ∧
  __getitem__ "c" (__setitem__ "b" 7 sample).2 =
    ((__getitem__ "c" sample).1, (__setitem__ "b" 7 sample).2).
Proof.
  assert ("c" ≠ "b") as Hne by discriminate.
  split; [exact sample_Invariants|]. split; [exact Hne|].
  exact (setitem_frame sample "b" 7 "c" sample_Invariants Hne).
Defined.

Lemma setitem_delitem_roundtrip_witness :
  ¬ present "a" sample ∧
  __delitem__ "a" (__setitem__ "a" 9 sample).2 = (Returns tt, sample).
Proof.
  split; [exact sample_absent_a|].
  exact (setitem_delitem_roundtrip sample "a" 9 sample_absent_a).
Defined.

Lemma setitem_overwrite_witness :
  Invariants sample ∧
  (__setitem__ "a" 2 (__setitem__ "a" 1 sample).2).2 =
    (__setitem__ "a" 2 sample).2.
Proof.
  split; [exact sample_Invariants|].
  exact (setitem_overwrite sample "a" 1 2 sample_Invariants).
Defined.

Lemma delitem_relocates_last_witness :
  Invariants sample ∧ _keys sample !! "c" = Some 0 ∧
  S (length (_values (__delitem__ "c" sample).2)) = length (_values sample).
Proof.
  split; [exact sample_Invariants|]. split; [exact sample_key_c|].
  exact (proj1 (delitem_relocates_last sample "c" 0 sample_Invariants
                  sample_key_c)).
Defined.

Lemma only_KeyError_escapes_witness :
  Invariants sample ∧ (__setitem__ "a" 9 sample).1 = Returns tt.
Proof.
  split; [exact sample_Invariants|].
  exact (proj1 (only_KeyError_escapes sample sample_Invariants) "a" 9).
Defined.

Lemma removed_key_never_drawn_witness :
  Invariants sample ∧ present "c" sample ∧
  randint 0 (last_index (__delitem__ "c" sample).2) 0 = true ∧
  ∃ k', random_key 0 (__delitem__ "c" sample).2 =
          (Returns k', (__delitem__ "c" sample).2) ∧ k' ≠ "c".
Proof.
  assert (randint 0 (last_index (__delitem__ "c" sample).2) 0 = true) as Hi
    by (vm_compute; reflexivity).
  split; [exact sample_Invariants|]. split; [exact sample_present_c|].
  split; [exact Hi|].
  destruct (removed_key_never_drawn sample "c" 0 sample_Invariants
              sample_present_c Hi) as (k' & Hr & Hne & _).
  exists k'. split; [exact Hr|exact Hne].
Defined.

Lemma iteration_enumerates_keys_witness :
  Invariants sample ∧
  ∃ ks, __iter__ sample = (Returns ks, sample) ∧ NoDup ks ∧
        __len__ sample = (Returns (Z.of_nat (length ks)), sample).
Proof.
  split; [exact sample_Invariants|].
  destruct (iteration_enumerates_keys sample sample_Invariants)
    as (ks & L & Hit & Hnd & _ & Hlen & _).
  exists ks. split; [exact Hit|]. split; [exact Hnd|exact Hlen].
Defined.

Lemma history_refines_dict_witness :
  Invariants (@empty_rd string _ _ Z) ∧
  ∃ d0, as_dict (@empty_rd string _ _ Z) = (Returns d0, empty_rd) ∧
        as_dict sample = (Returns (replay sample_ops d0), sample).
Proof.
  split; [exact empty_Invariants|].
  destruct (history_refines_dict sample_ops empty_rd empty_Invariants)
    as (d0 & Hd0 & Hd & _).
  exists d0. split; [exact Hd0|exact Hd].
Defined.

Lemma update_merges_witness :
  Invariants sample ∧ (length [[("b", 5); ("d", 6)]] ≤ 1)%nat ∧
  (update [[("b", 5); ("d", 6)]] [] sample).1 = Returns tt.
Proof.
  assert (length [[("b", 5); ("d", 6)]] ≤ 1)%nat as Hlen by (simpl; lia).
  split; [exact sample_Invariants|]. split; [exact Hlen|].
  exact (proj1 (update_merges sample [[("b", 5); ("d", 6)]] []
                  sample_Invariants Hlen)).
Defined.

Lemma construction_from_items_witness :
  Invariants sample ∧
  ∃ L rd, items sample = (Returns L, sample) ∧
          RandomDict_call [L] [] = Returns rd ∧
          __eq__ sample rd = (Returns true, rd).
Proof.
  split; [exact sample_Invariants|].
  destruct (construction_from_items sample sample_Invariants)
    as (L & rd & HL & Hrd & _ & Heq & _).
  exists L, rd. split; [exact HL|]. split; [exact Hrd|exact Heq].
Defined.

Lemma pop_returns_and_removes_witness :
  Invariants sample ∧ present "b" sample ∧ ¬ present "a" sample ∧
  (∃ v, pop "b" None sample = (Returns v, (__delitem__ "b" sample).2)) ∧
  pop "a" (Some 0) sample = (Returns 0, sample).
Proof.
  split; [exact sample_Invariants|]. split; [exact sample_present_b|].
  split; [exact sample_absent_a|]. split.
  - destruct (proj1 (pop_returns_and_removes sample "b" None sample_Invariants)
                sample_present_b) as (v & _ & Hpop & _).
    exists v. exact Hpop.
  - exact (proj2 (pop_returns_and_removes sample "a" (Some 0)
                    sample_Invariants) sample_absent_a).
Defined.

Lemma sample_count : count sample ≠ 0.
Proof. vm_compute. discriminate. Qed.

Lemma popitem_removes_a_present_key_witness :
  Invariants sample ∧ count sample ≠ 0 ∧
  ∃ k v, present k sample ∧
         popitem sample = (Returns (k, v), (__delitem__ k sample).2).
Proof.
  split; [exact sample_Invariants|]. split; [exact sample_count|].
  destruct (popitem_removes_a_present_key sample sample_Invariants
              sample_count) as (k & v & Hpr & _ & Hpop & _).
  exists k, v. split; [exact Hpr|exact Hpop].
Defined.

Lemma clear_gives_empty_witness :
  Invariants sample ∧ (Z.to_nat (count sample) < 3)%nat ∧
  clear 3 sample = Some (Returns tt, empty_rd).
Proof.
  assert (Z.to_nat (count sample) < 3)%nat as Hfuel by (vm_compute; lia).
  split; [exact sample_Invariants|]. split; [exact Hfuel|].
  exact (clear_gives_empty sample 3 sample_Invariants Hfuel).
Defined.

Lemma setdefault_keeps_or_inserts_witness :
  Invariants sample ∧ present "b" sample ∧ ¬ present "a" sample ∧
  (∃ v, setdefault "b" 0 sample = (Returns v, sample)) ∧
  setdefault "a" 0 sample = (Returns 0, (__setitem__ "a" 0 sample).2).
Proof.
  split; [exact sample_Invariants|]. split; [exact sample_present_b|].
  split; [exact sample_absent_a|]. split.
  - destruct (proj1 (setdefault_keeps_or_inserts sample "b" 0
                       sample_Invariants) sample_present_b) as (v & _ & Hsd).
    exists v. exact Hsd.
  - exact (proj1 (proj2 (setdefault_keeps_or_inserts sample "a" 0
                           sample_Invariants) sample_absent_a)).
Defined.

Lemma get_and_contains_witness :
  Invariants sample ∧ present "b" sample ∧ ¬ present "a" sample ∧
  (∃ v, get "b" 0 sample = (Returns v, sample)) ∧
  get "a" 0 sample = (Returns 0, sample).
Proof.
  split; [exact sample_Invariants|]. split; [exact sample_present_b|].
  split; [exact sample_absent_a|].
  destruct (get_and_contains sample "b" 0 sample_Invariants)
    as (_ & Hpres & _).
  destruct (get_and_contains sample "a" 0 sample_Invariants)
    as (_ & _ & Habs).
  split.
  - destruct (Hpres sample_present_b) as (v & _ & Hget).
    exists v. exact Hget.
  - exact (proj2 (Habs sample_absent_a)).
Defined.

(* ===================================================================== *)
(** ** [copy] and the rest of the heap *)
(* ===================================================================== *)

Section CopyFrame.
Context {K : Type} {EqK : EqDecision K} {CntK : Countable K}
        {V : Type} {EqV : EqDecision V} {StrK : StrKey K}.

Local Abbreviation heap := (gmap positive (@object K _ _ V)).

(** X18: [copy] creates and never overwrites. Whatever the state of the
    source, the copy is an instance at a reference that was not in use,
    bound to a dict and a list at references that were not in use either,
    with the attributes of the source; every object that was on the heap
    before the call, the source's dict and list included, is still there
    unchanged. *)
Theorem copy_allocates_only (h : heap) c1 (s : @RandomDict K _ _ V) :
  view h c1 = Some s →
  ∃ c2 kr' vr' h',
    copy c1 h = Some (Returns c2, h') ∧
    points_to h' c2 kr' vr' s ∧
    h !! c2 = None ∧ h !! kr' = None ∧ h !! vr' = None ∧
    ∀ r o, h !! r = Some o → h' !! r = Some o.
Proof.
  intros Hview. apply view_points_to in Hview as (kr & vr & Hc1 & Hkr & Hvr).
  destruct (new_RandomDict_nil h) as (new & kr0 & vr0 & h1 & Hnew & Hpt & Hold).
  destruct Hpt as (Hn1 & _ & _). simpl in Hn1.
  destruct (Hold _ _ Hc1) as [Hc1' _].
  destruct (Hold _ _ Hkr) as [Hkr' _].
  destruct (Hold _ _ Hvr) as [Hvr' _].
  set (kr' := fresh (dom h1)). set (h2 := <[kr' := ODict (_keys s)]> h1).
  set (h3 := <[new := OInstance kr' vr0 (-1)]> h2).
  set (vr' := fresh (dom h3)). set (h4 := <[vr' := OList (_values s)]> h3).
  set (h5 := <[new := OInstance kr' vr' (-1)]> h4).
  set (h6 := <[new := OInstance kr' vr' (last_index s)]> h5).
  assert (new ≠ kr') as E4 by (by apply (lookup_fresh_ne h1 _ _ Hn1)).
  assert (h3 !! new = Some (OInstance kr' vr0 (-1))) as Hn3
    by (unfold h3; apply lookup_insert_eq).
  assert (h3 !! kr' = Some (ODict (_keys s))) as Hk3.
  { unfold h3, h2. rewrite lookup_insert_ne by done. apply lookup_insert_eq. }
  assert (new ≠ vr') as F4 by (by apply (lookup_fresh_ne h3 _ _ Hn3)).
  assert (kr' ≠ vr') as F5 by (by apply (lookup_fresh_ne h3 _ _ Hk3)).
  assert (∀ r o, h !! r = Some o →
            r ≠ new ∧ r ≠ kr' ∧ r ≠ vr' ∧ h3 !! r = Some o) as Hframe.
  { intros r o Hr. destruct (Hold _ _ Hr) as [Hr1 Hrn].
    assert (r ≠ kr') by (by apply (lookup_fresh_ne h1 _ _ Hr1)).
    assert (h3 !! r = Some o) as Hr3
      by (unfold h3, h2; by rewrite !lookup_insert_ne by done).
    assert (r ≠ vr') by (by apply (lookup_fresh_ne h3 _ _ Hr3)). done. }
  assert (∀ r, (∀ o, h !! r = Some o → False) → h !! r = None) as Hnone.
  { intros r Hr. destruct (h !! r) as [o|] eqn:E; [|done]. by destruct (Hr o). }
  destruct (Hframe _ _ Hvr) as (_ & _ & _ & Hvr3).
  exists new, kr', vr', h6. split; [|split; [|split; [|split; [|split]]]].
  - unfold copy, mbind, H_bind. rewrite Hnew. cbv beta iota.
    rewrite (instance_of_eq _ _ _ _ _ Hc1'). cbv beta iota.
    rewrite (dict_at_eq _ _ _ Hkr'). cbv beta iota.
    unfold alloc at 1. cbv beta iota zeta. fold kr' h2.
    rewrite (instance_of_eq h2 new kr0 vr0 (-1))
      by (unfold h2; by rewrite lookup_insert_ne by done).
    cbv beta iota. unfold set_instance at 1. cbv beta iota. fold h3.
    rewrite (list_at_eq _ _ _ Hvr3). cbv beta iota.
    unfold alloc at 1. cbv beta iota zeta. fold vr' h4.
    rewrite (instance_of_eq h4 new kr' vr0 (-1))
      by (unfold h4; by rewrite lookup_insert_ne by done).
    cbv beta iota. unfold set_instance at 1. cbv beta iota. fold h5.
    rewrite (instance_of_eq h5 new kr' vr' (-1))
      by (unfold h5; apply lookup_insert_eq).
    cbv beta iota. unfold set_instance at 1. cbv beta iota. fold h6. done.
  - unfold points_to, h6, h5, h4. rewrite lookup_insert_eq.
    split; [done|]. split.
    + by rewrite !lookup_insert_ne by done.
    + rewrite !lookup_insert_ne by done. apply lookup_insert_eq.
  - apply Hnone. intros o Hr. by destruct (Hframe _ _ Hr) as (? & _).
  - apply Hnone. intros o Hr. by destruct (Hframe _ _ Hr) as (_ & ? & _).
  - apply Hnone. intros o Hr. by destruct (Hframe _ _ Hr) as (_ & _ & ? & _).
  - intros r o Hr. destruct (Hframe _ _ Hr) as (? & ? & ? & Hr3).
    unfold h6, h5, h4. by rewrite !lookup_insert_ne by done.
Qed.
End CopyFrame.

Lemma copy_allocates_only_witness :
  view sample_heap 3 = Some sample ∧
  ∃ c2 h', copy 3%positive sample_heap = Some (Returns c2, h') ∧
           sample_heap !! c2 = None ∧
           h' !! 1%positive = Some (ODict (_keys sample)).
Proof.
  split; [exact sample_view|].
  destruct (copy_allocates_only sample_heap 3 sample sample_view)
    as (c2 & kr' & vr' & h' & Hcopy & _ & Hc2 & _ & _ & Hframe).
  exists c2, h'. split; [exact Hcopy|]. split; [exact Hc2|].
  apply Hframe. vm_compute. reflexivity.
Defined.
